(** * Trapezoidal rule with pthreads: a model of [mpi_trap.c]

    The program integrates [f(x) = x^2 - 4x + 8] over [[a, b]] with [n]
    sub-intervals.  [main] fixes the globals, starts [thread_count] threads
    running [mutex_Trap], joins them and prints [GLOBAL_MUTEX_SUM].  Each
    thread takes the block [[BLOCK_LOW, BLOCK_HIGH]] of sample indices, sums
    the integrand over it in a thread-local [double], scales by [h] and adds
    the result to the shared total while holding the mutex.

    The model follows the source statement by statement:
    - C integers are [Z] with the two's complement wrap-around written out;
    - [double] arithmetic is an interface [Arith] with two instances, IEEE 754
      binary64 (the primitive floats) and the rationals (exact arithmetic);
    - the threads are a small-step machine over the shared globals, one step
      per access to shared memory, driven by a schedule.

    Assumed of the platform: [int] has 32 bits, [long] and [long long] have
    64, and [double] is binary64 with round-to-nearest and every operation
    rounded on its own. *)

From Stdlib Require Import ZArith QArith Qabs Lia Lqa List Bool Permutation.
From Stdlib Require Import Setoid Morphisms.
From Stdlib Require Import Floats Uint63.
Import ListNotations.

Open Scope Z_scope.

(** * Part I: the program *)

(** ** C integer types *)

Module CInt.

(** Value of a [w]-bit two's complement integer holding [z]. *)
Definition wrap (w z : Z) : Z := (z + 2 ^ (w - 1)) mod 2 ^ w - 2 ^ (w - 1).

Definition to_int (z : Z) : Z := wrap 32 z.
Definition to_long (z : Z) : Z := wrap 64 z.

Definition INT_MAX : Z := 2147483647.

End CInt.
Import CInt.

(** ** The block decomposition macros

    [#define BLOCK_LOW(id,p,n) ((id)*(n)/(p))] and
    [#define BLOCK_HIGH(id,p,n) (BLOCK_LOW((id)+1,p,n)-1)], at the types of
    their one use: [id] is a [long], [p] and [n] are [int], so the product and
    the quotient are computed in [long]; C division truncates ([Z.quot]). *)

Definition BLOCK_LOW (id p n : Z) : Z := to_long (Z.quot (to_long (id * n)) p).

Definition BLOCK_HIGH (id p n : Z) : Z :=
  to_long (BLOCK_LOW (to_long (id + 1)) p n - 1).

(** Number of indices of the inclusive range of worker [id]. *)
Definition block_size (id p n : Z) : Z := BLOCK_HIGH id p n - BLOCK_LOW id p n + 1.

(** [i] lies in the inclusive range of worker [id]. *)
Definition in_block (id p n i : Z) : Prop :=
  BLOCK_LOW id p n <= i <= BLOCK_HIGH id p n.

(** ** [double] arithmetic

    The operations the program applies to [double]s.  [of_int] is the
    conversion of an integer value to [double]; it also gives the literals
    ([0.0], [1.0], [2.0], [5.0] and the converted [4] and [8]). *)

Class Arith (T : Type) : Type := {
  of_int : Z -> T;
  add : T -> T -> T;
  sub : T -> T -> T;
  mul : T -> T -> T;
  div : T -> T -> T
}.

Declare Scope arith_scope.
Delimit Scope arith_scope with ar.
Infix "+" := add : arith_scope.
Infix "-" := sub : arith_scope.
Infix "*" := mul : arith_scope.
Infix "/" := div : arith_scope.

(** Integer to binary64 for [|z| < 2^63], rounding to nearest (exact below
    [2^53]). *)
Definition float_of_Z (z : Z) : float :=
  if z <? 0 then PrimFloat.opp (PrimFloat.of_uint63 (Uint63.of_Z (- z)))
  else PrimFloat.of_uint63 (Uint63.of_Z z).

(** IEEE 754 binary64, the arithmetic the compiled program runs on. *)
#[export] Instance Arith_double : Arith float := {|
  of_int := float_of_Z;
  add := PrimFloat.add;
  sub := PrimFloat.sub;
  mul := PrimFloat.mul;
  div := PrimFloat.div
|}.

(** Exact arithmetic on the rationals, the idealisation without rounding.
    [Qdiv x 0] is [0], so the exact instance says nothing about [n = 0]. *)
#[export] Instance Arith_exact : Arith Q := {|
  of_int := inject_Z;
  add := Qplus;
  sub := Qminus;
  mul := Qmult;
  div := Qdiv
|}.

(** ** The [for] statement

    [for (i = lo; i <= hi; i++) s = body i s] with a [long long] counter.
    [fuel] bounds the number of tests; [for_range] supplies the trip count,
    and [for_loop_fuel] shows that any larger bound gives the same state, so
    the loop always leaves by its test. *)

Fixpoint for_loop {St : Type} (body : Z -> St -> St) (fuel : nat) (i hi : Z) (s : St) : St :=
  match fuel with
  | O => s
  | S fuel' =>
      if i <=? hi then for_loop body fuel' (to_long (i + 1)) hi (body i s) else s
  end.

Definition trip_count (lo hi : Z) : nat := Z.to_nat (hi - lo + 1).

Definition for_range {St : Type} (body : Z -> St -> St) (lo hi : Z) (s : St) : St :=
  for_loop body (trip_count lo hi) lo hi s.

(** The sample indices the loop body runs at, in order. *)
Definition visited (lo hi : Z) : list Z :=
  for_range (fun i l => l ++ [i]) lo hi [].

(** The ranks [0 .. count-1] that [main] hands to [pthread_create]. *)
Definition ranks (count : Z) : list Z := map Z.of_nat (seq 0 (Z.to_nat count)).

(** ** Globals and the thread function *)

(** [int especial_case = (int)thread_rank;] *)
Definition especial_case (thread_rank : Z) : Z := to_int thread_rank.

(** The test [if( especial_case == 1)]. *)
Definition adds_endpoint (thread_rank : Z) : bool := especial_case thread_rank =? 1.

Record globals (T : Type) : Type := Globals {
  n : Z;
  a : T;
  b : T;
  h : T;
  thread_count : Z;
  GLOBAL_MUTEX_SUM : T;
  mutex : option Z   (* the rank holding the mutex, if any *)
}.
Arguments Globals {T}.
Arguments n {T}. Arguments a {T}. Arguments b {T}. Arguments h {T}.
Arguments thread_count {T}. Arguments GLOBAL_MUTEX_SUM {T}. Arguments mutex {T}.

Section Worker.

Context {T : Type} {A : Arith T}.
Local Open Scope arith_scope.

(** [double f(double x) { return x*x - 4*x + 8; }] *)
Definition f (x : T) : T := x * x - of_int 4 * x + of_int 8.

(** The endpoint term [(f(a)+f(b))/2.0]. *)
Definition endpoint_term (g : globals T) : T := (f (a g) + f (b g)) / of_int 2.

(** [local_int] when the loop is reached: [0.0], plus the endpoint term
    in the thread whose [especial_case] is 1. *)
Definition local_int_before_loop (g : globals T) (thread_rank : Z) : T :=
  let local_int := of_int 0 in
  if adds_endpoint thread_rank
  then local_int + endpoint_term g
  else local_int.

(** The integrand at sample [i], [f(a+(i*h))], and the loop body
    [local_int += f(a+(i*h));]. *)
Definition sample (g : globals T) (i : Z) : T := f (a g + of_int i * h g).

Definition loop_body (g : globals T) (i : Z) (local_int : T) : T :=
  local_int + sample g i.

(** [mutex_Trap] up to [local_int = local_int * h;]: the value the thread
    is about to add to [GLOBAL_MUTEX_SUM]. *)
Definition mutex_Trap_local (g : globals T) (thread_rank : Z) : T :=
  let local_a := BLOCK_LOW thread_rank (thread_count g) (n g) in
  let local_b := BLOCK_HIGH thread_rank (thread_count g) (n g) in
  let local_int := local_int_before_loop g thread_rank in
  let local_int := for_range (loop_body g) local_a local_b local_int in
  local_int * h g.

(** *** Threads

    Where a thread stands in [mutex_Trap].  A step is one access to shared
    state: the thread-local computation (it only reads globals that no
    thread writes), taking the mutex, reading [GLOBAL_MUTEX_SUM], writing it
    back increased, releasing the mutex. *)
Inductive pc : Type :=
| AtStart
| AtLock (local_int : T)
| AtLoad (local_int : T)
| AtStore (local_int loaded : T)
| AtUnlock
| Finished.

Definition threads : Type := Z -> option pc.

Definition set_thread (th : threads) (r : Z) (c : pc) : threads :=
  fun r' => if (r' =? r)%Z then Some c else th r'.

Definition set_sum (g : globals T) (v : T) : globals T :=
  Globals (n g) (a g) (b g) (h g) (thread_count g) v (mutex g).

Definition set_mutex (g : globals T) (m : option Z) : globals T :=
  Globals (n g) (a g) (b g) (h g) (thread_count g) (GLOBAL_MUTEX_SUM g) m.

(** One step of thread [r]; [None] when [r] cannot move (it does not exist,
    has returned, or waits for the mutex). *)
Definition step (r : Z) (st : globals T * threads) : option (globals T * threads) :=
  let (g, th) := st in
  match th r with
  | Some AtStart => Some (g, set_thread th r (AtLock (mutex_Trap_local g r)))
  | Some (AtLock v) =>
      match mutex g with
      | None => Some (set_mutex g (Some r), set_thread th r (AtLoad v))
      | Some _ => None
      end
  | Some (AtLoad v) => Some (g, set_thread th r (AtStore v (GLOBAL_MUTEX_SUM g)))
  | Some (AtStore v s) => Some (set_sum g (s + v), set_thread th r AtUnlock)
  | Some AtUnlock => Some (set_mutex g None, set_thread th r Finished)
  | Some Finished => None
  | None => None
  end.

(** A schedule names the thread that takes each successive step. *)
Fixpoint run (sched : list Z) (st : globals T * threads) : option (globals T * threads) :=
  match sched with
  | [] => Some st
  | r :: sched' =>
      match step r st with
      | Some st' => run sched' st'
      | None => None
      end
  end.

(** *** [main] *)

(** The globals when the first thread is created:
    [h = (b-a)/n; GLOBAL_MUTEX_SUM = 0;] and a fresh mutex. *)
Definition main_globals (n0 : Z) (a0 b0 : T) (count : Z) : globals T :=
  Globals n0 a0 b0 ((b0 - a0) / of_int n0) count (of_int 0) None.

Definition main_threads (count : Z) : threads :=
  fun r => if (0 <=? r)%Z && (r <? count)%Z then Some AtStart else None.

Definition finished (th : threads) (r : Z) : bool :=
  match th r with Some Finished => true | _ => false end.

(** [main] with its four constants as parameters: the value printed after
    every thread has been joined, [None] if the schedule gets stuck or
    ends before all threads have returned. *)
Definition main (n0 : Z) (a0 b0 : T) (count : Z) (sched : list Z) : option T :=
  match run sched (main_globals n0 a0 b0 count, main_threads count) with
  | Some (g, th) =>
      if forallb (finished th) (ranks count) then Some (GLOBAL_MUTEX_SUM g) else None
  | None => None
  end.

(** The schedule that runs the threads to completion one after another,
    in the order [order]. *)
Definition one_by_one (order : list Z) : list Z :=
  flat_map (fun r => [r; r; r; r; r]) order.

(** What the locked additions give when they happen in the order [order]. *)
Definition add_in_order (g : globals T) (order : list Z) : T :=
  fold_left (fun s r => s + mutex_Trap_local g r) order (GLOBAL_MUTEX_SUM g).

End Worker.

Arguments pc : clear implicits.
Arguments threads : clear implicits.

(** The constants of [main]: [n = 10000000; a = 1.0; b = 5.0; thread_count = 2]. *)
Definition hardwired_main {T : Type} {A : Arith T} (sched : list Z) : option T :=
  main 10000000 (of_int 1) (of_int 5) 2 sched.

Definition hardwired_globals : globals float :=
  main_globals 10000000 (of_int 1) (of_int 5) 2.

(** * Part II: definitions for the proofs *)

(** [cnt] consecutive integers from [lo]. *)
Fixpoint Zrange (lo : Z) (cnt : nat) : list Z :=
  match cnt with
  | O => []
  | S c => lo :: Zrange (lo + 1) c
  end.

Section InvariantDefinitions.

Context {T : Type} {A : Arith T}.
Local Open Scope arith_scope.

(** The globals that no thread writes. *)
Definition same_params (g g' : globals T) : Prop :=
  n g = n g' /\ a g = a g' /\ b g = b g' /\ h g = h g'
  /\ thread_count g = thread_count g'.

(** The local value a thread carries between its computation and its
    store. *)
Definition carried (c : option (pc T)) : option T :=
  match c with
  | Some (AtLock v) | Some (AtLoad v) | Some (AtStore v _) => Some v
  | _ => None
  end.

(** The thread is between [pthread_mutex_lock] and [pthread_mutex_unlock]. *)
Definition holding (c : option (pc T)) : bool :=
  match c with
  | Some (AtLoad _) | Some (AtStore _ _) | Some AtUnlock => true
  | _ => false
  end.

(** The thread has written its contribution. *)
Definition stored (c : option (pc T)) : bool :=
  match c with
  | Some AtUnlock | Some Finished => true
  | _ => false
  end.

(** No thread has started, the mutex is free. *)
Definition fresh (st : globals T * threads T) : Prop :=
  mutex (fst st) = None /\ forall r, snd st r = Some AtStart \/ snd st r = None.

Variable g0 : globals T.

(** What holds of every state reached from [g0]; [log] lists the ranks
    that have stored, in the order of their stores. *)
Record invariant (log : list Z) (st : globals T * threads T) : Prop := {
  inv_params : same_params g0 (fst st);
  inv_carried : forall r v, carried (snd st r) = Some v -> v = mutex_Trap_local g0 r;
  inv_mutex : forall r, mutex (fst st) = Some r <-> holding (snd st r) = true;
  inv_loaded : forall r v s, snd st r = Some (AtStore v s) -> s = GLOBAL_MUTEX_SUM (fst st);
  inv_sum : GLOBAL_MUTEX_SUM (fst st)
            = fold_left (fun s r => s + mutex_Trap_local g0 r) log (GLOBAL_MUTEX_SUM g0);
  inv_nodup : NoDup log;
  inv_log : forall r, In r log <-> stored (snd st r) = true
}.

End InvariantDefinitions.

Arguments invariant {T A} g0 log st.

Arguments inv_params {T A g0 log st}.
Arguments inv_carried {T A g0 log st}.
Arguments inv_mutex {T A g0 log st}.
Arguments inv_loaded {T A g0 log st}.
Arguments inv_sum {T A g0 log st}.
Arguments inv_nodup {T A g0 log st}.
Arguments inv_log {T A g0 log st}.

Section ExactDefinitions.

Local Open Scope Q_scope.

(** The sum of a list of rationals. *)
Fixpoint Qsum (l : list Q) : Q :=
  match l with
  | [] => 0
  | x :: l' => x + Qsum l'
  end.

(** The sum of the samples in closed form:
    [f] is a quadratic, so the sum of [f(a+(i*h))] over the indices below
    [k] is a cubic in [k]. *)

Definition samples_below (g : globals Q) (k : Z) : Q :=
  let x := inject_Z k in
  x * f (a g)
  + (2 * a g - 4) * h g * (x * (x - 1) / 2)
  + h g * h g * (x * (x - 1) * (2 * x - 1) / 6).

End ExactDefinitions.

(** ** Evaluating ten million samples

    Ten million samples are too many to run the loop of [mutex_Trap] with
    its counter in [Z]; [fast_loop] is the same loop with the counter in a
    machine integer, and [fast_local_correct] shows that it computes the
    value of [mutex_Trap_local].  The two branches of the test on [s] are
    the same: the test only makes a lazy evaluator compute the sum before it
    goes on, instead of piling up ten million pending additions. *)

Definition fast_f (x : float) : float := (x * x - 4 * x + 8)%float.

Fixpoint fast_loop (fuel : nat) (i hi : int) (a0 h0 local_int : float) : float :=
  match fuel with
  | O => local_int
  | S fuel' =>
      if (i <=? hi)%uint63
      then
        let s := (local_int + fast_f (a0 + PrimFloat.of_uint63 i * h0))%float in
        if PrimFloat.eqb s s
        then fast_loop fuel' (i + 1)%uint63 hi a0 h0 s
        else fast_loop fuel' (i + 1)%uint63 hi a0 h0 s
      else local_int
  end.

Definition fast_local (g : globals float) (thread_rank : Z) : float :=
  let local_a := BLOCK_LOW thread_rank (thread_count g) (n g) in
  let local_b := BLOCK_HIGH thread_rank (thread_count g) (n g) in
  mul (fast_loop (trip_count local_a local_b) (Uint63.of_Z local_a) (Uint63.of_Z local_b)
         (a g) (h g) (local_int_before_loop g thread_rank))
      (h g).


(** ** Measures for the further properties *)

(** How many steps of [mutex_Trap] a thread has taken. *)
Definition progress {T : Type} (c : option (pc T)) : nat :=
  match c with
  | None | Some AtStart => 0
  | Some (AtLock _) => 1
  | Some (AtLoad _) => 2
  | Some (AtStore _ _) => 3
  | Some AtUnlock => 4
  | Some Finished => 5
  end.

(** An antiderivative of [x^2 - 4x + 8]. *)
Definition antiderivative (x : Q) : Q := (x * x * x / 3 - 2 * x * x + 8 * x)%Q.

(** The ranks whose step is the store into [GLOBAL_MUTEX_SUM], in the order
    in which the schedule makes them store. *)
Definition at_store {T : Type} (c : option (pc T)) : bool :=
  match c with
  | Some (AtStore _ _) => true
  | _ => false
  end.

Fixpoint stores {T : Type} {A : Arith T}
    (sched : list Z) (st : globals T * threads T) : list Z :=
  match sched with
  | [] => []
  | r :: sched' =>
      match step r st with
      | Some st' => (if at_store (snd st r) then [r] else []) ++ stores sched' st'
      | None => []
      end
  end.

(** * Part III: lemmas and theorems *)

(** ** C integers *)

Lemma wrap_small w z :
  0 < w -> - 2 ^ (w - 1) <= z < 2 ^ (w - 1) -> wrap w z = z.
Proof.
  intros Hw Hz. unfold wrap.
  assert (E : 2 ^ w = 2 * 2 ^ (w - 1)).
  { replace w with (Z.succ (w - 1)) at 1 by lia. apply Z.pow_succ_r. lia. }
  rewrite Z.mod_small; lia.
Qed.

Lemma to_int_small z : - 2147483648 <= z <= INT_MAX -> to_int z = z.
Proof. intros H. apply wrap_small; unfold INT_MAX in *; simpl; lia. Qed.

Lemma to_long_small z :
  - 9223372036854775808 <= z < 9223372036854775808 -> to_long z = z.
Proof. intros H. apply wrap_small; simpl; lia. Qed.

(** ** The blocks partition the sample indices *)

(** The blocks of the two threads of [main]. *)
Example hardwired_blocks :
  BLOCK_LOW 0 2 10000000 = 0 /\ BLOCK_HIGH 0 2 10000000 = 4999999
  /\ BLOCK_LOW 1 2 10000000 = 5000000 /\ BLOCK_HIGH 1 2 10000000 = 9999999.
Proof. repeat split. Qed.

(** Ten indices over four workers: blocks of sizes 2, 3, 2, 3. *)
Example blocks_10_4 :
  map (fun id => (BLOCK_LOW id 4 10, BLOCK_HIGH id 4 10)) (ranks 4)
  = [(0, 1); (2, 4); (5, 6); (7, 9)].
Proof. reflexivity. Qed.

(** One index over three workers: only the last block is not empty. *)
Example blocks_1_3 :
  map (fun id => visited (BLOCK_LOW id 3 1) (BLOCK_HIGH id 3 1)) (ranks 3)
  = [[]; []; [0]].
Proof. reflexivity. Qed.

Section BlockFacts.

Variables p n : Z.
Hypothesis Hp : 1 <= p <= INT_MAX.
Hypothesis Hn : 0 <= n <= INT_MAX.

Lemma BLOCK_LOW_floor id : 0 <= id <= p -> BLOCK_LOW id p n = id * n / p.
Proof using Hp Hn.
  intros Hid. unfold BLOCK_LOW, INT_MAX in *.
  assert (0 <= id * n <= 2147483647 * 2147483647) by nia.
  rewrite (to_long_small (id * n)) by lia.
  rewrite Z.quot_div_nonneg by lia.
  apply to_long_small.
  assert (0 <= id * n / p) by (apply Z.div_pos; lia).
  assert (id * n / p <= id * n) by (apply Z.div_le_upper_bound; nia).
  lia.
Qed.

Lemma BLOCK_HIGH_floor id : 0 <= id < p -> BLOCK_HIGH id p n = (id + 1) * n / p - 1.
Proof using Hp Hn.
  intros Hid. unfold BLOCK_HIGH.
  assert (E : to_long (id + 1) = id + 1)
    by (apply to_long_small; unfold INT_MAX in *; lia).
  rewrite E, BLOCK_LOW_floor by lia.
  apply to_long_small.
  assert (0 <= (id + 1) * n / p) by (apply Z.div_pos; unfold INT_MAX in *; nia).
  assert ((id + 1) * n / p <= (id + 1) * n)
    by (apply Z.div_le_upper_bound; unfold INT_MAX in *; nia).
  unfold INT_MAX in *. nia.
Qed.

Lemma BLOCK_HIGH_next id : 0 <= id < p -> BLOCK_HIGH id p n = BLOCK_LOW (id + 1) p n - 1.
Proof using Hp Hn.
  intros Hid. rewrite BLOCK_HIGH_floor, BLOCK_LOW_floor by lia. reflexivity.
Qed.

Lemma BLOCK_LOW_first : BLOCK_LOW 0 p n = 0.
Proof using Hp Hn. rewrite BLOCK_LOW_floor by lia. apply Z.div_0_l. lia. Qed.

Lemma BLOCK_LOW_last : BLOCK_LOW p p n = n.
Proof using Hp Hn. rewrite BLOCK_LOW_floor by lia. rewrite Z.mul_comm. apply Z.div_mul. lia. Qed.

Lemma BLOCK_LOW_mono id1 id2 :
  0 <= id1 <= id2 -> id2 <= p -> BLOCK_LOW id1 p n <= BLOCK_LOW id2 p n.
Proof using Hp Hn.
  intros H1 H2. rewrite !BLOCK_LOW_floor by lia.
  apply Z.div_le_mono; nia.
Qed.

Lemma BLOCK_LOW_range id : 0 <= id <= p -> 0 <= BLOCK_LOW id p n <= n.
Proof using Hp Hn.
  intros Hid.
  pose proof (BLOCK_LOW_mono 0 id ltac:(lia) ltac:(lia)) as L.
  pose proof (BLOCK_LOW_mono id p ltac:(lia) ltac:(lia)) as U.
  rewrite BLOCK_LOW_first in L. rewrite BLOCK_LOW_last in U. lia.
Qed.

(** Every block has [n / p] or [n / p + 1] indices. *)
Lemma block_size_bounds id :
  0 <= id < p -> n / p <= block_size id p n <= n / p + 1.
Proof using Hp Hn.
  intros Hid. unfold block_size.
  rewrite BLOCK_HIGH_floor, BLOCK_LOW_floor by lia.
  pose proof (Z.div_mod n p ltac:(lia)) as En.
  pose proof (Z.mod_pos_bound n p ltac:(lia)) as Br.
  set (q := n / p) in *. set (r := n mod p) in *.
  replace ((id + 1) * n) with (((id + 1) * r) + ((id + 1) * q) * p) by nia.
  replace (id * n) with ((id * r) + (id * q) * p) by nia.
  rewrite !Z.div_add by lia.
  assert (L : id * r / p <= (id + 1) * r / p) by (apply Z.div_le_mono; nia).
  assert (U : (id + 1) * r / p <= id * r / p + 1).
  { replace (id * r / p + 1) with ((id * r + 1 * p) / p)
      by (rewrite Z.div_add by lia; reflexivity).
    apply Z.div_le_mono; nia. }
  nia.
Qed.

(** Some worker owns each index below [n]: search the block boundaries. *)
Lemma block_owner_exists i :
  0 <= i < n -> exists id, 0 <= id < p /\ in_block id p n i.
Proof using Hp Hn.
  intros Hi.
  assert (G : forall k : nat, Z.of_nat k <= p -> i < BLOCK_LOW (Z.of_nat k) p n ->
              exists id, 0 <= id < Z.of_nat k /\ in_block id p n i).
  { induction k as [|k IH]; intros Hk Hlt.
    - change (Z.of_nat 0) with 0 in Hlt. rewrite BLOCK_LOW_first in Hlt. lia.
    - destruct (Z_lt_le_dec i (BLOCK_LOW (Z.of_nat k) p n)) as [Hlow|Hlow].
      + destruct (IH ltac:(lia) Hlow) as (id & Hid & Hin). exists id. split; [lia|exact Hin].
      + exists (Z.of_nat k). split; [lia|]. unfold in_block.
        rewrite BLOCK_HIGH_next by lia.
        replace (Z.of_nat k + 1) with (Z.of_nat (S k)) by lia. lia. }
  destruct (G (Z.to_nat p)) as (id & Hid & Hin).
  - rewrite Z2Nat.id; lia.
  - rewrite Z2Nat.id by lia. rewrite BLOCK_LOW_last. lia.
  - exists id. rewrite Z2Nat.id in Hid by lia. auto.
Qed.

Lemma in_block_bounds id i : 0 <= id < p -> in_block id p n i -> 0 <= i < n.
Proof using Hp Hn.
  unfold in_block. intros Hid Hin. rewrite BLOCK_HIGH_next in Hin by lia.
  pose proof (BLOCK_LOW_range id ltac:(lia)).
  pose proof (BLOCK_LOW_range (id + 1) ltac:(lia)). lia.
Qed.

Lemma in_block_unique id1 id2 i :
  0 <= id1 < p -> 0 <= id2 < p ->
  in_block id1 p n i -> in_block id2 p n i -> id1 = id2.
Proof using Hp Hn.
  unfold in_block. intros H1 H2 I1 I2.
  rewrite BLOCK_HIGH_next in I1, I2 by lia.
  destruct (Z.lt_trichotomy id1 id2) as [Hlt|[Heq|Hgt]]; [|exact Heq|].
  - pose proof (BLOCK_LOW_mono (id1 + 1) id2 ltac:(lia) ltac:(lia)). lia.
  - pose proof (BLOCK_LOW_mono (id2 + 1) id1 ltac:(lia) ltac:(lia)). lia.
Qed.

End BlockFacts.

(** C2: for [1 <= p] and [0 <= n] (both [int]), [BLOCK_LOW] and [BLOCK_HIGH]
    are the floor formulas, the inclusive blocks of the workers [0 .. p-1]
    cover exactly the indices [0 .. n-1], no index lies in two blocks, and the
    sizes of any two blocks differ by at most one. *)
Theorem block_partition (p n : Z) :
  1 <= p <= INT_MAX -> 0 <= n <= INT_MAX ->
  (forall id, 0 <= id < p ->
     BLOCK_LOW id p n = id * n / p /\ BLOCK_HIGH id p n = (id + 1) * n / p - 1) /\
  (forall i, 0 <= i < n <-> exists id, 0 <= id < p /\ in_block id p n i) /\
  (forall id1 id2 i, 0 <= id1 < p -> 0 <= id2 < p ->
     in_block id1 p n i -> in_block id2 p n i -> id1 = id2) /\
  (forall id1 id2, 0 <= id1 < p -> 0 <= id2 < p ->
     Z.abs (block_size id1 p n - block_size id2 p n) <= 1).
Proof.
  intros Hp Hn. repeat split.
  - apply BLOCK_LOW_floor; lia.
  - apply BLOCK_HIGH_floor; lia.
  - apply block_owner_exists; assumption.
  - destruct H as (id & Hid & Hin). eapply in_block_bounds; eauto.
  - destruct H as (id & Hid & Hin). eapply in_block_bounds; eauto.
  - intros id1 id2 i. apply in_block_unique; assumption.
  - intros id1 id2 H1 H2.
    pose proof (block_size_bounds p n Hp Hn id1 H1).
    pose proof (block_size_bounds p n Hp Hn id2 H2). lia.
Qed.

Lemma block_partition_witness :
  1 <= 4 <= INT_MAX /\ 0 <= 10 <= INT_MAX
  /\ BLOCK_LOW 1 4 10 = 1 * 10 / 4 /\ BLOCK_HIGH 1 4 10 = (1 + 1) * 10 / 4 - 1
  /\ (exists id, 0 <= id < 4 /\ in_block id 4 10 7)
  /\ Z.abs (block_size 0 4 10 - block_size 3 4 10) <= 1.
Proof.
  assert (Hp : 1 <= 4 <= INT_MAX) by (unfold INT_MAX; lia).
  assert (Hn : 0 <= 10 <= INT_MAX) by (unfold INT_MAX; lia).
  destruct (block_partition 4 10 Hp Hn) as (Hfloor & Hcover & _ & Hsize).
  split; [exact Hp|]. split; [exact Hn|].
  split; [apply (Hfloor 1); lia|]. split; [apply (Hfloor 1); lia|].
  split; [apply Hcover; lia|apply Hsize; lia].
Defined.

(** ** Loops and ranks *)

Lemma Zrange_app lo c1 c2 :
  Zrange lo (c1 + c2) = Zrange lo c1 ++ Zrange (lo + Z.of_nat c1) c2.
Proof.
  revert lo. induction c1 as [|c1 IH]; intros lo.
  - simpl. now rewrite Z.add_0_r.
  - simpl Zrange. rewrite IH. simpl. do 3 f_equal. lia.
Qed.

Lemma trip_count_step i hi : i <= hi -> trip_count i hi = S (trip_count (i + 1) hi).
Proof. intros H. unfold trip_count. lia. Qed.

Lemma trip_count_empty i hi : hi < i -> trip_count i hi = O.
Proof. intros H. unfold trip_count. lia. Qed.

(** With fuel for at least the trip count, the loop folds its body over the
    indices [i .. hi]; in particular the result does not depend on the fuel. *)
Lemma for_loop_fold {St : Type} (body : Z -> St -> St) fuel : forall i hi s,
  - 9223372036854775808 <= i -> hi < 9223372036854775807 ->
  (trip_count i hi <= fuel)%nat ->
  for_loop body fuel i hi s
  = fold_left (fun s i => body i s) (Zrange i (trip_count i hi)) s.
Proof.
  induction fuel as [|fuel IH]; intros i hi s Hi Hhi Hfuel.
  - replace (trip_count i hi) with O by lia. reflexivity.
  - simpl. destruct (Z.leb_spec i hi) as [Hle|Hgt].
    + rewrite (trip_count_step i hi Hle) in *. simpl.
      rewrite to_long_small by lia. apply IH; lia.
    + rewrite (trip_count_empty i hi Hgt). reflexivity.
Qed.

Lemma for_range_fold {St : Type} (body : Z -> St -> St) lo hi s :
  - 9223372036854775808 <= lo -> hi < 9223372036854775807 ->
  for_range body lo hi s
  = fold_left (fun s i => body i s) (Zrange lo (trip_count lo hi)) s.
Proof. intros. apply for_loop_fold; auto. Qed.

Lemma for_loop_fuel {St : Type} (body : Z -> St -> St) fuel lo hi s :
  - 9223372036854775808 <= lo -> hi < 9223372036854775807 ->
  (trip_count lo hi <= fuel)%nat ->
  for_loop body fuel lo hi s = for_range body lo hi s.
Proof. intros. rewrite for_range_fold, for_loop_fold; auto. Qed.

Lemma for_range_empty {St : Type} (body : Z -> St -> St) lo hi s :
  hi < lo -> for_range body lo hi s = s.
Proof. intros H. unfold for_range. rewrite (trip_count_empty lo hi H). reflexivity. Qed.

Lemma fold_left_snoc_list {X : Type} (l acc : list X) :
  fold_left (fun l i => l ++ [i]) l acc = acc ++ l.
Proof.
  revert acc. induction l as [|x l IH]; intros acc; simpl.
  - now rewrite app_nil_r.
  - rewrite IH, <- app_assoc. reflexivity.
Qed.

Lemma visited_Zrange lo hi :
  - 9223372036854775808 <= lo -> hi < 9223372036854775807 ->
  visited lo hi = Zrange lo (trip_count lo hi).
Proof.
  intros. unfold visited. rewrite for_range_fold by assumption.
  apply fold_left_snoc_list.
Qed.

Lemma for_range_visited {St : Type} (body : Z -> St -> St) lo hi s :
  - 9223372036854775808 <= lo -> hi < 9223372036854775807 ->
  for_range body lo hi s = fold_left (fun s i => body i s) (visited lo hi) s.
Proof. intros. rewrite visited_Zrange by assumption. now apply for_range_fold. Qed.

Lemma in_ranks count r : In r (ranks count) <-> 0 <= r < count.
Proof.
  unfold ranks. rewrite in_map_iff. split.
  - intros (k & <- & Hk). apply in_seq in Hk. lia.
  - intros Hr. exists (Z.to_nat r). split; [lia|]. apply in_seq. lia.
Qed.

Lemma NoDup_ranks count : NoDup (ranks count).
Proof.
  unfold ranks. apply Finite.Injective_map_NoDup.
  - intros x y. apply Nat2Z.inj.
  - apply seq_NoDup.
Qed.

Lemma ranks_succ k : 0 <= k -> ranks (k + 1) = ranks k ++ [k].
Proof.
  intros Hk. unfold ranks.
  replace (Z.to_nat (k + 1)) with (S (Z.to_nat k)) by lia.
  rewrite seq_S, map_app. simpl. now rewrite Z2Nat.id by lia.
Qed.

Lemma in_Zrange (c : nat) : forall lo i, In i (Zrange lo c) <-> lo <= i < lo + Z.of_nat c.
Proof.
  induction c as [|c IH]; intros lo i.
  - simpl. lia.
  - cbn [Zrange In]. rewrite IH. lia.
Qed.

Lemma visited_block (p n r : Z) :
  1 <= p <= INT_MAX -> 0 <= n <= INT_MAX -> 0 <= r < p ->
  visited (BLOCK_LOW r p n) (BLOCK_HIGH r p n)
  = Zrange (BLOCK_LOW r p n) (Z.to_nat (BLOCK_LOW (r + 1) p n - BLOCK_LOW r p n)).
Proof.
  intros Hp Hn Hr.
  pose proof (BLOCK_LOW_range p n Hp Hn r ltac:(lia)) as Hlo.
  pose proof (BLOCK_LOW_range p n Hp Hn (r + 1) ltac:(lia)) as Hhi.
  rewrite visited_Zrange;
    [|lia|rewrite (BLOCK_HIGH_next p n Hp Hn) by assumption; unfold INT_MAX in *; lia].
  f_equal. unfold trip_count. rewrite (BLOCK_HIGH_next p n Hp Hn) by assumption.
  f_equal. lia.
Qed.

(** ** Every run serialises the locked additions *)

(** [a = 1], [b = 5], [n = 4], two threads: [h = 1], thread 0 adds
    [f(1) + f(2) = 9], thread 1 adds [9 + f(3) + f(4) = 22], in either order;
    a schedule that moves a thread waiting for the mutex, or that ends before
    every thread has returned, gives no result. *)
Example main_n4_double :
  main (T := float) 4 (of_int 1) (of_int 5) 2 (one_by_one [0; 1]) = Some 31%float
  /\ main (T := float) 4 (of_int 1) (of_int 5) 2 [1; 0; 1; 1; 1; 1; 0; 0; 0; 0]
     = Some 31%float
  /\ main (T := float) 4 (of_int 1) (of_int 5) 2 [1; 0; 1; 0] = None
  /\ main (T := float) 4 (of_int 1) (of_int 5) 2 [0; 0; 0; 0; 0] = None.
Proof. repeat split. Qed.

Lemma fold_left_ext_in_sum {X Y : Type} (f1 f2 : X -> Y -> X) (l : list Y) :
  (forall x y, In y l -> f1 x y = f2 x y) ->
  forall x, fold_left f1 l x = fold_left f2 l x.
Proof.
  induction l as [|y l IH]; intros Hext x; simpl; [reflexivity|].
  rewrite Hext by now left. apply IH. intros x' y' Hin. apply Hext. now right.
Qed.

Section Interleaving.

Context {T : Type} {A : Arith T}.
Local Open Scope arith_scope.

Lemma same_params_refl (g : globals T) : same_params g g.
Proof. repeat split. Qed.

Lemma mutex_Trap_local_params (g g' : globals T) r :
  same_params g g' -> mutex_Trap_local g r = mutex_Trap_local g' r.
Proof.
  intros (Hn & Ha & Hb & Hh & Hc).
  unfold mutex_Trap_local, local_int_before_loop, endpoint_term, loop_body, sample.
  rewrite Hn, Ha, Hb, Hh, Hc. reflexivity.
Qed.

Lemma set_thread_same (th : threads T) r c : set_thread th r c r = Some c.
Proof. unfold set_thread. now rewrite Z.eqb_refl. Qed.

Lemma set_thread_other (th : threads T) r c r' : r' <> r -> set_thread th r c r' = th r'.
Proof. intros H. unfold set_thread. now apply Z.eqb_neq in H as ->. Qed.

Variable g0 : globals T.

Lemma step_domain r st st' :
  step r st = Some st' -> forall r', snd st' r' = None <-> snd st r' = None.
Proof.
  destruct st as [g th]. unfold step.
  destruct (th r) as [[| v | v | v s | |]|] eqn:E; try discriminate;
    try (destruct (mutex g); try discriminate);
    intros [= <-] r'; simpl;
    (destruct (Z.eq_dec r' r) as [->|Hne];
     [rewrite set_thread_same, E; split; discriminate
     |rewrite set_thread_other by assumption; reflexivity]).
Qed.

(** A thread that holds the mutex excludes every other holder. *)
Lemma holder_unique {log st} r r' :
  invariant g0 log st -> holding (snd st r) = true -> holding (snd st r') = true -> r = r'.
Proof.
  intros I H1 H2. apply (inv_mutex I) in H1. apply (inv_mutex I) in H2. congruence.
Qed.

Ltac other_thread r' r :=
  destruct (Z.eq_dec r' r) as [->|?];
  [rewrite ?set_thread_same in * | rewrite ?set_thread_other in * by assumption].

Lemma step_invariant r log st st' :
  invariant g0 log st -> step r st = Some st' ->
  exists log', invariant g0 log' st'
               /\ (log' = log \/ (log' = log ++ [r] /\ exists v s, snd st r = Some (AtStore v s))).
Proof.
  intros I Hstep. destruct st as [g th]. unfold step in Hstep.
  destruct (th r) as [[| v | v | v s | |]|] eqn:E; try discriminate.
  - (* the local computation *)
    injection Hstep as <-. exists log. split; [|now left].
    constructor; simpl; try apply I.
    + intros r' v. other_thread r' r.
      * simpl. intros [= <-]. apply mutex_Trap_local_params.
        destruct (inv_params I) as (?&?&?&?&?). repeat split; simpl in *; congruence.
      * apply (inv_carried I).
    + intros r'. rewrite (inv_mutex I r'). simpl. other_thread r' r.
      * rewrite E. reflexivity.
      * reflexivity.
    + intros r' v s. other_thread r' r; [discriminate|]. apply (inv_loaded I).
    + intros r'. rewrite (inv_log I r'). simpl. other_thread r' r.
      * rewrite E. reflexivity.
      * reflexivity.
  - (* pthread_mutex_lock *)
    destruct (mutex g) eqn:M; [discriminate|]. injection Hstep as <-.
    exists log. split; [|now left].
    constructor; simpl; try apply I.
    + intros r' w. other_thread r' r.
      * simpl. intros [= <-]. apply (inv_carried I r). simpl. now rewrite E.
      * apply (inv_carried I).
    + intros r'. other_thread r' r.
      * simpl. split; reflexivity.
      * split.
        -- intros [= ->]. contradiction.
        -- intros Hh. apply (inv_mutex I) in Hh. simpl in Hh. congruence.
    + intros r' w s. other_thread r' r; [discriminate|]. apply (inv_loaded I).
    + intros r'. rewrite (inv_log I r'). simpl. other_thread r' r.
      * rewrite E. reflexivity.
      * reflexivity.
  - (* reading GLOBAL_MUTEX_SUM *)
    injection Hstep as <-. exists log. split; [|now left].
    constructor; simpl; try apply I.
    + intros r' w. other_thread r' r.
      * simpl. intros [= <-]. apply (inv_carried I r). simpl. now rewrite E.
      * apply (inv_carried I).
    + intros r'. rewrite (inv_mutex I r'). simpl. other_thread r' r.
      * rewrite E. reflexivity.
      * reflexivity.
    + intros r' w s. other_thread r' r.
      * intros [= _ <-]. reflexivity.
      * apply (inv_loaded I).
    + intros r'. rewrite (inv_log I r'). simpl. other_thread r' r.
      * rewrite E. reflexivity.
      * reflexivity.
  - (* writing GLOBAL_MUTEX_SUM *)
    injection Hstep as <-. exists (log ++ [r]). split; [|right; eauto].
    assert (Hr : ~ In r log).
    { rewrite (inv_log I r). simpl. rewrite E. discriminate. }
    constructor; simpl.
    + apply (inv_params I).
    + intros r' w. other_thread r' r; [discriminate|]. apply (inv_carried I).
    + intros r'. rewrite (inv_mutex I r'). simpl. other_thread r' r.
      * rewrite E. reflexivity.
      * reflexivity.
    + intros r' w s'. other_thread r' r; [discriminate|].
      intros E'. exfalso.
      assert (r' = r); [|contradiction].
      apply (holder_unique r' r I); simpl; [rewrite E'|rewrite E]; reflexivity.
    + rewrite fold_left_app. simpl. rewrite <- (inv_sum I). simpl.
      rewrite (inv_loaded I r v s E). simpl.
      f_equal. apply (inv_carried I r). simpl. now rewrite E.
    + apply NoDup_app; [apply (inv_nodup I)|repeat constructor; intros []|].
      intros x Hx [<-|[]]. contradiction.
    + intros r'. rewrite in_app_iff, (inv_log I r'). simpl. other_thread r' r.
      * rewrite E. simpl. intuition.
      * intuition congruence.
  - (* pthread_mutex_unlock *)
    injection Hstep as <-. exists log. split; [|now left].
    constructor; simpl; try apply I.
    + intros r' w. other_thread r' r; [discriminate|]. apply (inv_carried I).
    + intros r'. other_thread r' r.
      * simpl. split; discriminate.
      * split; [discriminate|]. intros Hh. exfalso.
        assert (r' = r); [|contradiction].
        apply (holder_unique r' r I); simpl; [assumption|rewrite E; reflexivity].
    + intros r' w s. other_thread r' r; [discriminate|]. apply (inv_loaded I).
    + intros r'. rewrite (inv_log I r'). simpl. other_thread r' r.
      * rewrite E. reflexivity.
      * reflexivity.
Qed.

Lemma fresh_invariant th : fresh (g0, th) -> invariant g0 [] (g0, th).
Proof.
  intros [Hm Hth]. constructor; simpl in *.
  - apply same_params_refl.
  - intros r v. destruct (Hth r) as [-> | ->]; discriminate.
  - intros r. rewrite Hm. destruct (Hth r) as [-> | ->]; simpl; split; discriminate.
  - intros r v s. destruct (Hth r) as [-> | ->]; discriminate.
  - reflexivity.
  - constructor.
  - intros r. destruct (Hth r) as [-> | ->]; simpl; split; (contradiction || discriminate).
Qed.

Lemma run_invariant sched : forall log st st',
  invariant g0 log st -> run sched st = Some st' ->
  exists log', invariant g0 log' st' /\ (forall r, snd st' r = None <-> snd st r = None).
Proof.
  induction sched as [|r sched IH]; intros log st st' I Hrun; simpl in Hrun.
  - injection Hrun as <-. exists log. split; [assumption|reflexivity].
  - destruct (step r st) as [st1|] eqn:Hstep; [|discriminate].
    destruct (step_invariant r log st st1 I Hstep) as (log1 & I1 & _).
    destruct (IH log1 st1 st' I1 Hrun) as (log' & I' & Hdom).
    exists log'. split; [assumption|].
    intros r'. rewrite Hdom. apply (step_domain r st st1 Hstep).
Qed.

End Interleaving.

Section Serialisation.

Context {T : Type} {A : Arith T}.
Local Open Scope arith_scope.

Lemma main_fresh n0 (a0 b0 : T) count :
  fresh (main_globals n0 a0 b0 count, main_threads count).
Proof.
  split; [reflexivity|]. intros r. simpl. unfold main_threads.
  destruct ((0 <=? r)%Z && (r <? count)%Z); auto.
Qed.

Lemma main_threads_domain count r :
  main_threads (T := T) count r <> None <-> (0 <= r < count)%Z.
Proof.
  unfold main_threads.
  destruct (Z.leb_spec 0 r), (Z.ltb_spec r count); simpl; split;
    (lia || discriminate || congruence).
Qed.

(** Whatever the interleaving, the value [main] prints is the one obtained
    by adding the threads' local values, one after the other, in some order
    of the ranks. *)
Lemma main_serialises n0 (a0 b0 : T) count sched v :
  main n0 a0 b0 count sched = Some v ->
  exists order, Permutation order (ranks count)
                /\ v = add_in_order (main_globals n0 a0 b0 count) order.
Proof.
  unfold main. set (g0 := main_globals n0 a0 b0 count).
  destruct (run sched (g0, main_threads count)) as [[g th]|] eqn:Hrun; [|discriminate].
  destruct (forallb (finished th) (ranks count)) eqn:Hfin; [|discriminate].
  intros [= <-].
  destruct (run_invariant g0 sched [] _ _
              (fresh_invariant g0 _ (main_fresh n0 a0 b0 count)) Hrun)
    as (log & I & Hdom).
  exists log. split.
  - apply NoDup_Permutation; [apply (inv_nodup I)|apply NoDup_ranks|].
    intros r. rewrite (inv_log I r), in_ranks. simpl in *. split.
    + intros Hs. apply main_threads_domain. rewrite <- Hdom.
      destruct (th r); [discriminate|discriminate Hs].
    + intros Hr. apply in_ranks in Hr.
      rewrite forallb_forall in Hfin. specialize (Hfin r Hr).
      unfold finished in Hfin. destruct (th r) as [[]|]; try discriminate. reflexivity.
  - exact (inv_sum I).
Qed.

Lemma run_app s1 : forall s2 (st : globals T * threads T),
  run (s1 ++ s2) st = match run s1 st with Some st' => run s2 st' | None => None end.
Proof.
  induction s1 as [|r s1 IH]; intros s2 st; simpl; [reflexivity|].
  destruct (step r st); [apply IH|reflexivity].
Qed.

(** A thread that has not started runs, alone, from start to return. *)
Lemma run_one_thread r (g : globals T) (th : threads T) :
  th r = Some AtStart -> mutex g = None ->
  exists g' th',
    run [r; r; r; r; r] (g, th) = Some (g', th')
    /\ same_params g g' /\ mutex g' = None
    /\ GLOBAL_MUTEX_SUM g' = GLOBAL_MUTEX_SUM g + mutex_Trap_local g r
    /\ th' r = Some Finished /\ (forall r', r' <> r -> th' r' = th r').
Proof.
  intros Hr Hm. unfold run, step.
  rewrite Hr, set_thread_same, Hm, set_thread_same, set_thread_same, set_thread_same.
  do 2 eexists. split; [reflexivity|]. repeat split.
  - apply set_thread_same.
  - intros r' Hne. now rewrite !set_thread_other by assumption.
Qed.

Lemma run_one_by_one order : forall (g : globals T) (th : threads T),
  NoDup order -> (forall r, In r order -> th r = Some AtStart) -> mutex g = None ->
  exists g' th',
    run (one_by_one order) (g, th) = Some (g', th')
    /\ same_params g g' /\ mutex g' = None
    /\ GLOBAL_MUTEX_SUM g' = add_in_order g order
    /\ (forall r, In r order -> th' r = Some Finished)
    /\ (forall r, ~ In r order -> th' r = th r).
Proof.
  induction order as [|r order IH]; intros g th Hnd Hth Hm.
  - exists g, th. simpl. repeat split; auto using same_params_refl; contradiction.
  - inversion Hnd as [|? ? Hr Hnd']; subst.
    destruct (run_one_thread r g th (Hth r (or_introl eq_refl)) Hm)
      as (g1 & th1 & Hrun1 & Hp1 & Hm1 & Hsum1 & Hfin1 & Hoth1).
    destruct (IH g1 th1 Hnd') as (g' & th' & Hrun & Hp & Hm' & Hsum & Hfin & Hoth).
    + intros r' Hin. rewrite Hoth1; [apply Hth; now right|]. intros ->. contradiction.
    + exact Hm1.
    + exists g', th'. repeat split.
      * unfold one_by_one in *. simpl flat_map.
        change (r :: r :: r :: r :: r :: flat_map (fun r0 => [r0; r0; r0; r0; r0]) order)
          with ([r; r; r; r; r] ++ flat_map (fun r0 => [r0; r0; r0; r0; r0]) order).
        rewrite run_app, Hrun1. exact Hrun.
      * destruct Hp as (?&?&?&?&?), Hp1 as (?&?&?&?&?). congruence.
      * destruct Hp as (?&?&?&?&?), Hp1 as (?&?&?&?&?). congruence.
      * destruct Hp as (?&?&?&?&?), Hp1 as (?&?&?&?&?). congruence.
      * destruct Hp as (?&?&?&?&?), Hp1 as (?&?&?&?&?). congruence.
      * destruct Hp as (?&?&?&?&?), Hp1 as (?&?&?&?&?). congruence.
      * exact Hm'.
      * rewrite Hsum. unfold add_in_order. simpl. rewrite Hsum1.
        apply fold_left_ext_in_sum. intros s r' _. f_equal.
        symmetry. now apply mutex_Trap_local_params.
      * intros r' [<-|Hin]; [|now apply Hfin].
        rewrite Hoth by assumption. exact Hfin1.
      * intros r' Hnin. rewrite Hoth by (intros Hin; apply Hnin; now right).
        apply Hoth1. intros ->. apply Hnin. now left.
Qed.

(** Every order of the ranks is the order of the additions of some run. *)
Lemma main_one_by_one n0 (a0 b0 : T) count order :
  Permutation order (ranks count) ->
  main n0 a0 b0 count (one_by_one order)
  = Some (add_in_order (main_globals n0 a0 b0 count) order).
Proof.
  intros Hperm. unfold main.
  destruct (run_one_by_one order (main_globals n0 a0 b0 count) (main_threads count))
    as (g' & th' & Hrun & _ & _ & Hsum & Hfin & _).
  - apply (Permutation_NoDup (Permutation_sym Hperm)), NoDup_ranks.
  - intros r Hin. apply (Permutation_in _ Hperm), in_ranks in Hin.
    unfold main_threads.
    destruct (Z.leb_spec 0 r), (Z.ltb_spec r count); simpl; (reflexivity || lia).
  - reflexivity.
  - rewrite Hrun.
    replace (forallb (finished th') (ranks count)) with true; [now rewrite Hsum|].
    symmetry. apply forallb_forall. intros r Hin.
    apply (Permutation_in _ (Permutation_sym Hperm)) in Hin.
    unfold finished. now rewrite (Hfin r Hin).
Qed.

End Serialisation.

(** ** Exact arithmetic *)

Section Exact.

Local Open Scope Q_scope.

Lemma Qsum_app l1 l2 : Qsum (l1 ++ l2) == Qsum l1 + Qsum l2.
Proof.
  induction l1 as [|x l1 IH]; simpl.
  - ring.
  - rewrite IH. ring.
Qed.

Lemma Qsum_perm l1 l2 : Permutation l1 l2 -> Qsum l1 == Qsum l2.
Proof.
  induction 1 as [|x l1 l2 _ IH|x y l|l1 l2 l3 _ IH1 _ IH2]; simpl.
  - reflexivity.
  - now rewrite IH.
  - ring.
  - now rewrite IH1.
Qed.

Lemma fold_add_Qsum {X : Type} (c : X -> Q) l :
  forall s0, fold_left (fun s x => add s (c x)) l s0 == s0 + Qsum (map c l).
Proof.
  induction l as [|x l IH]; intros s0; simpl.
  - ring.
  - rewrite IH. simpl. ring.
Qed.

Lemma add_in_order_exact (g : globals Q) order :
  add_in_order g order == GLOBAL_MUTEX_SUM g + Qsum (map (mutex_Trap_local g) order).
Proof. apply fold_add_Qsum. Qed.

Lemma add_in_order_perm (g : globals Q) order1 order2 :
  Permutation order1 order2 -> add_in_order g order1 == add_in_order g order2.
Proof.
  intros Hperm. rewrite !add_in_order_exact.
  now rewrite (Qsum_perm _ _ (Permutation_map (mutex_Trap_local g) Hperm)).
Qed.

(** The printed value is the sum of the threads' local values. *)
Lemma main_exact n0 a0 b0 count sched v :
  main n0 a0 b0 count sched = Some v ->
  v == Qsum (map (mutex_Trap_local (main_globals n0 a0 b0 count)) (ranks count)).
Proof.
  intros Hmain. destruct (main_serialises _ _ _ _ _ _ Hmain) as (order & Hperm & ->).
  rewrite (add_in_order_perm _ _ _ Hperm), add_in_order_exact. simpl. ring.
Qed.

(** *** The threads' local values *)

Section Locals.

Variable g : globals Q.
Hypothesis Hp : (1 <= thread_count g <= INT_MAX)%Z.
Hypothesis Hn : (0 <= n g <= INT_MAX)%Z.

Let low (r : Z) : Z := BLOCK_LOW r (thread_count g) (n g).

Lemma block_trip_count r :
  (0 <= r < thread_count g)%Z ->
  trip_count (low r) (BLOCK_HIGH r (thread_count g) (n g))
  = Z.to_nat (low (r + 1) - low r).
Proof using Hp Hn.
  intros Hr. unfold trip_count, low.
  rewrite (BLOCK_HIGH_next _ _ Hp Hn) by assumption. f_equal. lia.
Qed.

Lemma local_int_before_loop_exact r :
  (0 <= r < thread_count g)%Z ->
  local_int_before_loop g r == if (r =? 1)%Z then endpoint_term g else 0.
Proof using Hp.
  intros Hr. unfold local_int_before_loop, adds_endpoint, especial_case.
  rewrite to_int_small by lia.
  destruct (r =? 1)%Z; simpl; ring.
Qed.

Lemma mutex_Trap_local_exact r :
  (0 <= r < thread_count g)%Z ->
  mutex_Trap_local g r
  == ((if (r =? 1)%Z then endpoint_term g else 0)
      + Qsum (map (sample g) (Zrange (low r) (Z.to_nat (low (r + 1) - low r))))) * h g.
Proof using Hp Hn.
  intros Hr. unfold mutex_Trap_local.
  pose proof (BLOCK_LOW_range _ _ Hp Hn r ltac:(lia)) as Hlo.
  pose proof (BLOCK_LOW_range _ _ Hp Hn (r + 1) ltac:(lia)) as Hhi.
  rewrite for_range_fold;
    [|lia|rewrite (BLOCK_HIGH_next _ _ Hp Hn) by assumption; unfold INT_MAX in *; lia].
  fold (low r). rewrite block_trip_count by assumption.
  unfold loop_body. rewrite fold_add_Qsum.
  rewrite local_int_before_loop_exact by assumption. reflexivity.
Qed.

(** The blocks of the ranks below [k] make up the indices below the
    lower bound of block [k]; the endpoint term comes in with rank 1. *)
Lemma locals_prefix (k : nat) :
  (Z.of_nat k <= thread_count g)%Z ->
  Qsum (map (mutex_Trap_local g) (ranks (Z.of_nat k)))
  == ((if (2 <=? Z.of_nat k)%Z then endpoint_term g else 0)
      + Qsum (map (sample g) (Zrange 0 (Z.to_nat (low (Z.of_nat k)))))) * h g.
Proof using Hp Hn.
  induction k as [|k IH]; intros Hk.
  - change (Z.of_nat 0) with 0%Z. unfold low. rewrite (BLOCK_LOW_first _ _ Hp Hn). simpl. ring.
  - replace (Z.of_nat (S k)) with (Z.of_nat k + 1)%Z by lia.
    rewrite ranks_succ, map_app, Qsum_app by lia.
    rewrite IH by lia. cbn [map Qsum].
    rewrite mutex_Trap_local_exact by lia.
    pose proof (BLOCK_LOW_range _ _ Hp Hn (Z.of_nat k) ltac:(lia)) as Hlo.
    pose proof (BLOCK_LOW_mono _ _ Hp Hn (Z.of_nat k) (Z.of_nat k + 1)
                  ltac:(lia) ltac:(lia)) as Hmono.
    fold (low (Z.of_nat k)) in Hlo, Hmono. fold (low (Z.of_nat k + 1)) in Hmono.
    replace (Z.to_nat (low (Z.of_nat k + 1)))
      with (Z.to_nat (low (Z.of_nat k))
            + Z.to_nat (low (Z.of_nat k + 1) - low (Z.of_nat k)))%nat by lia.
    rewrite Zrange_app, map_app, Qsum_app.
    rewrite Z2Nat.id, Z.add_0_l by lia.
    destruct (Z.eqb_spec (Z.of_nat k) 1) as [E|E].
    + rewrite E. simpl. ring.
    + destruct (Z.leb_spec 2 (Z.of_nat k)), (Z.leb_spec 2 (Z.of_nat k + 1));
        try lia; ring.
Qed.

End Locals.

(** [main] in exact arithmetic: [h] times the sum of the integrand over
    the sample indices [0 .. n-1], plus [h] times the endpoint term when
    there is a thread of rank 1. *)
Lemma main_exact_total n0 a0 b0 count sched v :
  (1 <= count <= INT_MAX)%Z -> (0 <= n0 <= INT_MAX)%Z ->
  main n0 a0 b0 count sched = Some v ->
  let g := main_globals n0 a0 b0 count in
  v == ((if (2 <=? count)%Z then endpoint_term g else 0)
        + Qsum (map (sample g) (Zrange 0 (Z.to_nat n0)))) * h g.
Proof.
  intros Hp Hn Hmain g. rewrite (main_exact _ _ _ _ _ _ Hmain). fold g.
  pose proof (locals_prefix g Hp Hn (Z.to_nat count)) as L.
  rewrite Z2Nat.id in L by lia. rewrite L by (simpl; lia).
  simpl thread_count. simpl n. rewrite (BLOCK_LOW_last _ _ Hp Hn). reflexivity.
Qed.

Lemma samples_below_succ g k :
  samples_below g (k + 1) == samples_below g k + sample g k.
Proof.
  unfold samples_below, sample, f. cbn [of_int add sub mul Arith_exact].
  rewrite inject_Z_plus.
  change (inject_Z 1) with 1. change (inject_Z 4) with 4. change (inject_Z 8) with 8.
  field.
Qed.

Lemma Qsum_samples g c : forall lo,
  Qsum (map (sample g) (Zrange lo c))
  == samples_below g (lo + Z.of_nat c) - samples_below g lo.
Proof.
  induction c as [|c IH]; intros lo.
  - simpl. rewrite Z.add_0_r. ring.
  - cbn [Zrange map Qsum]. rewrite IH.
    replace (lo + 1 + Z.of_nat c)%Z with (lo + Z.of_nat (S c))%Z by lia.
    rewrite samples_below_succ. ring.
Qed.


End Exact.

(** ** The endpoint term *)

Lemma adds_endpoint_rank r : 0 <= r <= INT_MAX -> adds_endpoint r = (r =? 1).
Proof.
  intros Hr. unfold adds_endpoint, especial_case. now rewrite to_int_small by lia.
Qed.

Lemma filter_adds_endpoint (k : nat) :
  Z.of_nat k <= INT_MAX ->
  filter adds_endpoint (ranks (Z.of_nat k)) = if 2 <=? Z.of_nat k then [1] else [].
Proof.
  induction k as [|k IH]; intros Hk; [reflexivity|].
  replace (Z.of_nat (S k)) with (Z.of_nat k + 1) by lia.
  rewrite ranks_succ, filter_app, IH by lia. cbn [filter].
  rewrite adds_endpoint_rank by lia.
  destruct (Z.eqb_spec (Z.of_nat k) 1) as [E|E].
  - rewrite E. reflexivity.
  - destruct (Z.leb_spec 2 (Z.of_nat k)), (Z.leb_spec 2 (Z.of_nat k + 1));
      try lia; now rewrite ?app_nil_r.
Qed.

(** C3, as the code has it: with at least two threads, rank 1 is the one
    rank among [0 .. thread_count-1] that passes the test
    [especial_case == 1], so exactly one thread starts its local sum from
    [0.0 + (f(a)+f(b))/2.0] and every other thread starts from [0.0],
    whatever [n] and the blocks are. *)
Theorem endpoint_term_once {T : Type} {A : Arith T} (g : globals T) :
  2 <= thread_count g <= INT_MAX ->
  filter adds_endpoint (ranks (thread_count g)) = [1]
  /\ length (filter adds_endpoint (ranks (thread_count g))) = 1%nat
  /\ forall r, 0 <= r < thread_count g ->
       local_int_before_loop g r
       = if r =? 1 then add (of_int 0) (endpoint_term g) else of_int 0.
Proof.
  intros Hp.
  assert (E : filter adds_endpoint (ranks (thread_count g)) = [1]).
  { pose proof (filter_adds_endpoint (Z.to_nat (thread_count g))) as F.
    rewrite Z2Nat.id in F by lia. rewrite F by lia.
    destruct (Z.leb_spec 2 (thread_count g)); [reflexivity|lia]. }
  rewrite E. repeat split.
  intros r Hr. unfold local_int_before_loop. now rewrite adds_endpoint_rank by lia.
Qed.

Lemma endpoint_term_once_witness :
  let g := main_globals (T := float) 10000000 (of_int 1) (of_int 5) 2 in
  2 <= thread_count g <= INT_MAX
  /\ filter adds_endpoint (ranks (thread_count g)) = [1]
  /\ local_int_before_loop g 1 = 9%float
  /\ local_int_before_loop g 0 = 0%float.
Proof.
  intros g.
  assert (Hp : 2 <= thread_count g <= INT_MAX) by (unfold INT_MAX; simpl; lia).
  destruct (endpoint_term_once g Hp) as (Hf & _ & Hl).
  split; [exact Hp|]. split; [exact Hf|]. split.
  - rewrite (Hl 1) by (simpl; lia). reflexivity.
  - rewrite (Hl 0) by (simpl; lia). reflexivity.
Defined.

(** With a single thread there is no rank 1: no thread passes the test and
    the endpoint term is added nowhere. *)
Lemma endpoint_term_single_thread :
  let g := main_globals (T := float) 10000000 (of_int 1) (of_int 5) 1 in
  ranks (thread_count g) = [0]
  /\ length (filter adds_endpoint (ranks (thread_count g))) = 0%nat
  /\ local_int_before_loop g 0 = 0%float.
Proof. repeat split. Qed.

(** C4, as the code has it: in exact arithmetic, for fixed [a], [b] and
    [n >= 1], the value [main] prints does not depend on the number of
    threads as long as there are at least two (so it is the same for 2, 4 and
    8 threads), whatever the interleavings. *)
Theorem estimate_worker_count_invariant (n0 : Z) (a0 b0 : Q) (count1 count2 : Z)
    (sched1 sched2 : list Z) (v1 v2 : Q) :
  1 <= n0 <= INT_MAX ->
  2 <= count1 <= INT_MAX -> 2 <= count2 <= INT_MAX ->
  main n0 a0 b0 count1 sched1 = Some v1 ->
  main n0 a0 b0 count2 sched2 = Some v2 ->
  (v1 == v2)%Q.
Proof.
  intros Hn H1 H2 M1 M2.
  assert (Hn' : 0 <= n0 <= INT_MAX) by lia.
  assert (H1' : 1 <= count1 <= INT_MAX) by lia.
  assert (H2' : 1 <= count2 <= INT_MAX) by lia.
  rewrite (main_exact_total _ _ _ _ _ _ H1' Hn' M1).
  rewrite (main_exact_total _ _ _ _ _ _ H2' Hn' M2).
  destruct (Z.leb_spec 2 count1), (Z.leb_spec 2 count2); try lia.
  reflexivity.
Qed.

Lemma estimate_worker_count_invariant_witness :
  exists v1 v2 : Q,
    main 8 (of_int 1) (of_int 5) 2 (one_by_one [0; 1]) = Some v1
    /\ main 8 (of_int 1) (of_int 5) 4 (one_by_one [3; 1; 0; 2]) = Some v2
    /\ (v1 == v2)%Q.
Proof.
  do 2 eexists. split; [vm_compute; reflexivity|]. split; [vm_compute; reflexivity|].
  apply (estimate_worker_count_invariant 8 (of_int 1) (of_int 5) 2 4
           (one_by_one [0; 1]) (one_by_one [3; 1; 0; 2]));
    unfold INT_MAX; try lia; vm_compute; reflexivity.
Defined.

(** One thread against two, [a = 1], [b = 5], [n = 4] (so [h = 1]): the
    single thread prints 22, two threads print 31; the difference is the
    endpoint term [h*(f(a)+f(b))/2 = 9], in binary64 and in exact
    arithmetic alike. *)
Lemma estimate_differs_for_one_thread :
  main (T := float) 4 (of_int 1) (of_int 5) 1 (one_by_one [0]) = Some 22%float
  /\ main (T := float) 4 (of_int 1) (of_int 5) 2 (one_by_one [0; 1]) = Some 31%float
  /\ exists v1 v2 : Q,
       main 4 (of_int 1) (of_int 5) 1 (one_by_one [0]) = Some v1
       /\ main 4 (of_int 1) (of_int 5) 2 (one_by_one [0; 1]) = Some v2
       /\ (v2 - v1 == 9)%Q /\ ~ (Qabs (v1 - v2) <= 1 # 1000000000)%Q.
Proof.
  split; [vm_compute; reflexivity|]. split; [vm_compute; reflexivity|].
  do 2 eexists. split; [vm_compute; reflexivity|]. split; [vm_compute; reflexivity|].
  split; [vm_compute; reflexivity|]. vm_compute. intros H. apply H. reflexivity.
Qed.

(** ** Empty blocks *)

Lemma empty_block_local {T : Type} {A : Arith T} (g : globals T) (r : Z) :
  0 <= r <= INT_MAX ->
  BLOCK_HIGH r (thread_count g) (n g) < BLOCK_LOW r (thread_count g) (n g) ->
  mutex_Trap_local g r
  = mul (if r =? 1 then add (of_int 0) (endpoint_term g) else of_int 0) (h g).
Proof.
  intros Hr Hempty. unfold mutex_Trap_local.
  rewrite for_range_empty by assumption.
  unfold local_int_before_loop. now rewrite adds_endpoint_rank by assumption.
Qed.

(** C6, as the code has it: a thread whose block is empty runs the loop body
    at no index and adds [h] times the value its local sum had before the
    loop.  That value is [0.0] for every rank but 1, so those threads add
    [0.0 * h], which is zero in exact arithmetic; rank 1 adds
    [h * (f(a)+f(b))/2]. *)
Theorem empty_range_contribution :
  (forall (T : Type) (A : Arith T) (g : globals T) (r : Z),
     0 <= r < thread_count g -> thread_count g <= INT_MAX ->
     BLOCK_HIGH r (thread_count g) (n g) < BLOCK_LOW r (thread_count g) (n g) ->
     visited (BLOCK_LOW r (thread_count g) (n g)) (BLOCK_HIGH r (thread_count g) (n g)) = []
     /\ mutex_Trap_local g r
        = mul (if r =? 1 then add (of_int 0) (endpoint_term g) else of_int 0) (h g))
  /\ (forall (g : globals Q) (r : Z),
        0 <= r < thread_count g -> thread_count g <= INT_MAX ->
        BLOCK_HIGH r (thread_count g) (n g) < BLOCK_LOW r (thread_count g) (n g) ->
        r <> 1 -> (mutex_Trap_local g r == 0)%Q).
Proof.
  split.
  - intros T A g r Hr Hp Hempty. split.
    + unfold visited. now apply for_range_empty.
    + apply empty_block_local; [lia|assumption].
  - intros g r Hr Hp Hempty Hne.
    rewrite empty_block_local by (assumption || lia).
    destruct (Z.eqb_spec r 1); [contradiction|]. simpl. ring.
Qed.

Lemma empty_range_contribution_witness :
  let g := main_globals (T := float) 1 (of_int 1) (of_int 5) 3 in
  BLOCK_HIGH 0 3 1 < BLOCK_LOW 0 3 1
  /\ visited (BLOCK_LOW 0 3 1) (BLOCK_HIGH 0 3 1) = []
  /\ mutex_Trap_local g 0 = 0%float
  /\ (mutex_Trap_local (main_globals (T := Q) 1 (of_int 1) (of_int 5) 3) 0 == 0)%Q.
Proof.
  intros g.
  assert (He : BLOCK_HIGH 0 3 1 < BLOCK_LOW 0 3 1) by (vm_compute; reflexivity).
  destruct empty_range_contribution as [Hgen Hexact].
  destruct (Hgen float _ g 0) as [Hv Hl];
    [simpl; lia | unfold INT_MAX; simpl; lia | exact He |].
  split; [exact He|]. split; [exact Hv|]. split.
  - rewrite Hl. reflexivity.
  - apply Hexact; [simpl; lia | unfold INT_MAX; simpl; lia | exact He | lia].
Defined.

(** [n = 1] with three threads: the block of rank 1 is empty
    ([low = 0], [high = -1]), yet rank 1 adds [h * (f(a)+f(b))/2 = 36]. *)
Lemma empty_range_rank1_adds_endpoint :
  let gd := main_globals (T := float) 1 (of_int 1) (of_int 5) 3 in
  let gq := main_globals (T := Q) 1 (of_int 1) (of_int 5) 3 in
  1 < thread_count gd
  /\ BLOCK_LOW 1 3 1 = 0 /\ BLOCK_HIGH 1 3 1 = -1
  /\ visited (BLOCK_LOW 1 3 1) (BLOCK_HIGH 1 3 1) = []
  /\ mutex_Trap_local gd 1 = 36%float
  /\ (mutex_Trap_local gq 1 == 36)%Q /\ ~ (mutex_Trap_local gq 1 == 0)%Q.
Proof.
  intros gd gq. repeat split; try (vm_compute; reflexivity).
  vm_compute. discriminate.
Qed.

(** C9, as the code has it: with at least two threads, rank 1 starts its
    local sum from [0.0 + (f(a)+f(b))/2.0] whatever its block is; its block
    is empty exactly when [2 * n < thread_count], and then it adds
    [(0.0 + (f(a)+f(b))/2.0) * h]; in exact arithmetic the printed total is
    [h] times the endpoint term plus the samples, for every [n >= 1]. *)
Theorem endpoint_term_unconditional :
  (forall (T : Type) (A : Arith T) (g : globals T),
     2 <= thread_count g <= INT_MAX -> 0 <= n g <= INT_MAX ->
     local_int_before_loop g 1 = add (of_int 0) (endpoint_term g)
     /\ (BLOCK_HIGH 1 (thread_count g) (n g) < BLOCK_LOW 1 (thread_count g) (n g)
         <-> 2 * n g < thread_count g)
     /\ (2 * n g < thread_count g ->
         mutex_Trap_local g 1 = mul (add (of_int 0) (endpoint_term g)) (h g)))
  /\ (forall (n0 : Z) (a0 b0 : Q) (count : Z) (sched : list Z) (v : Q),
        2 <= count <= INT_MAX -> 1 <= n0 <= INT_MAX ->
        main n0 a0 b0 count sched = Some v ->
        let g := main_globals n0 a0 b0 count in
        (v == (endpoint_term g + Qsum (map (sample g) (Zrange 0 (Z.to_nat n0)))) * h g)%Q).
Proof.
  split.
  - intros T A g Hp Hn.
    assert (Hp' : 1 <= thread_count g <= INT_MAX) by lia.
    assert (E : BLOCK_HIGH 1 (thread_count g) (n g) < BLOCK_LOW 1 (thread_count g) (n g)
                <-> 2 * n g < thread_count g).
    { rewrite (BLOCK_HIGH_floor _ _ Hp' Hn), (BLOCK_LOW_floor _ _ Hp' Hn) by lia.
      change (1 + 1) with 2. rewrite Z.mul_1_l.
      pose proof (Z.div_mod (n g) (thread_count g) ltac:(lia)) as D1.
      pose proof (Z.mod_pos_bound (n g) (thread_count g) ltac:(lia)) as B1.
      pose proof (Z.div_mod (2 * n g) (thread_count g) ltac:(lia)) as D2.
      pose proof (Z.mod_pos_bound (2 * n g) (thread_count g) ltac:(lia)) as B2.
      assert (0 <= n g / thread_count g) by (apply Z.div_pos; lia).
      assert (0 <= 2 * n g / thread_count g) by (apply Z.div_pos; lia).
      split; intros H1.
      - generalize dependent (n g / thread_count g).
        generalize dependent (2 * n g / thread_count g).
        generalize dependent (n g mod thread_count g).
        generalize dependent ((2 * n g) mod thread_count g).
        intros r2 B2 r1 B1 q2 D2 Hq2 q1 D1 Hq1 H1.
        assert (thread_count g * q2 <= thread_count g * q1) by nia.
        assert (q1 = 0) by nia. nia.
      - rewrite (Z.div_small (2 * n g)), (Z.div_small (n g)) by lia. lia. }
    split; [|split].
    + unfold local_int_before_loop. now rewrite adds_endpoint_rank by (unfold INT_MAX; lia).
    + exact E.
    + intros H2n. rewrite empty_block_local; [reflexivity|unfold INT_MAX; lia|now apply E].
  - intros n0 a0 b0 count sched v Hp Hn Hmain g.
    assert (Hp' : 1 <= count <= INT_MAX) by lia.
    assert (Hn' : 0 <= n0 <= INT_MAX) by lia.
    rewrite (main_exact_total _ _ _ _ _ _ Hp' Hn' Hmain). fold g.
    destruct (Z.leb_spec 2 count); [reflexivity|lia].
Qed.

Lemma endpoint_term_unconditional_witness :
  let g := main_globals (T := float) 1 (of_int 1) (of_int 5) 3 in
  local_int_before_loop g 1 = 9%float
  /\ BLOCK_HIGH 1 3 1 < BLOCK_LOW 1 3 1
  /\ mutex_Trap_local g 1 = 36%float
  /\ exists v : Q,
       main 1 (of_int 1) (of_int 5) 3 (one_by_one [0; 1; 2]) = Some v /\ (v == 56)%Q.
Proof.
  intros g.
  destruct endpoint_term_unconditional as [Hgen Hexact].
  destruct (Hgen float _ g) as (Hb & He & Hl);
    [unfold INT_MAX; simpl; lia | unfold INT_MAX; simpl; lia |].
  split; [rewrite Hb; reflexivity|].
  split; [apply He; simpl; lia|].
  split; [rewrite Hl by (simpl; lia); reflexivity|].
  eexists. split; [vm_compute; reflexivity|].
  rewrite (Hexact 1 (of_int 1) (of_int 5) 3 (one_by_one [0; 1; 2]));
    [vm_compute; reflexivity | unfold INT_MAX; lia | unfold INT_MAX; lia
    | vm_compute; reflexivity].
Defined.

(** [n = 1] with two threads: [n < thread_count], yet the block of rank 1 is
    [[0, 0]], not empty. *)
Lemma rank1_block_not_empty :
  1 < 2 /\ 2 >= 2
  /\ BLOCK_LOW 1 2 1 = 0 /\ BLOCK_HIGH 1 2 1 = 0
  /\ visited (BLOCK_LOW 1 2 1) (BLOCK_HIGH 1 2 1) = [0]
  /\ ~ BLOCK_HIGH 1 2 1 < BLOCK_LOW 1 2 1.
Proof. repeat split; try lia; vm_compute; congruence. Qed.

(** ** Independence of the interleaving *)

(** C7: in exact arithmetic the value [main] prints does not depend on the
    order in which the threads perform their locked additions: every order of
    the ranks is the order of the additions of some run, permuting the order
    leaves the total unchanged, and any two runs print the same value. *)
Theorem total_independent_of_order (n0 : Z) (a0 b0 : Q) (count : Z) :
  let g := main_globals n0 a0 b0 count in
  (forall order, Permutation order (ranks count) ->
     main n0 a0 b0 count (one_by_one order) = Some (add_in_order g order))
  /\ (forall order1 order2, Permutation order1 order2 ->
        (add_in_order g order1 == add_in_order g order2)%Q)
  /\ (forall sched1 sched2 v1 v2,
        main n0 a0 b0 count sched1 = Some v1 ->
        main n0 a0 b0 count sched2 = Some v2 ->
        (v1 == v2)%Q).
Proof.
  intros g. split; [|split].
  - intros order Hperm. now apply main_one_by_one.
  - intros order1 order2 Hperm. now apply add_in_order_perm.
  - intros sched1 sched2 v1 v2 M1 M2.
    rewrite (main_exact _ _ _ _ _ _ M1), (main_exact _ _ _ _ _ _ M2). reflexivity.
Qed.

Lemma total_independent_of_order_witness :
  exists v1 v2 : Q,
    main 4 (of_int 1) (of_int 5) 2 (one_by_one [0; 1]) = Some v1
    /\ main 4 (of_int 1) (of_int 5) 2 [1; 0; 1; 1; 1; 1; 0; 0; 0; 0] = Some v2
    /\ (v1 == v2)%Q.
Proof.
  do 2 eexists. split; [vm_compute; reflexivity|]. split; [vm_compute; reflexivity|].
  destruct (total_independent_of_order 4 (of_int 1) (of_int 5) 2) as (_ & _ & H).
  apply (H (one_by_one [0; 1]) [1; 0; 1; 1; 1; 1; 0; 0; 0; 0]); vm_compute; reflexivity.
Defined.

(** C10: the value a thread adds to [GLOBAL_MUTEX_SUM] is
    [mutex_Trap_local] of the parameters and its rank.  Take two runs, from
    globals that agree on [n], [a], [b], [h] and [thread_count] but hold
    arbitrary totals, under arbitrary schedules; whenever thread [r] is about
    to store in both, it carries the same local value, and its store takes the
    total from its current contents [s] to [s + v]. *)
Theorem worker_amount_deterministic {T : Type} {A : Arith T}
    (ga gb : globals T) (tha thb : threads T) (scheda schedb : list Z)
    (ga' gb' : globals T) (tha' thb' : threads T) (r : Z) (va sa vb sb : T) :
  same_params ga gb ->
  fresh (ga, tha) -> fresh (gb, thb) ->
  run scheda (ga, tha) = Some (ga', tha') ->
  run schedb (gb, thb) = Some (gb', thb') ->
  tha' r = Some (AtStore va sa) ->
  thb' r = Some (AtStore vb sb) ->
  va = vb
  /\ va = mutex_Trap_local ga r
  /\ step r (ga', tha')
     = Some (set_sum ga' (add (GLOBAL_MUTEX_SUM ga') va), set_thread tha' r AtUnlock)
  /\ step r (gb', thb')
     = Some (set_sum gb' (add (GLOBAL_MUTEX_SUM gb') vb), set_thread thb' r AtUnlock).
Proof.
  intros Hsame Fa Fb Ra Rb Ea Eb.
  destruct (run_invariant ga scheda [] _ _ (fresh_invariant ga tha Fa) Ra) as (la & Ia & _).
  destruct (run_invariant gb schedb [] _ _ (fresh_invariant gb thb Fb) Rb) as (lb & Ib & _).
  assert (Va : va = mutex_Trap_local ga r).
  { apply (inv_carried Ia r). simpl. now rewrite Ea. }
  assert (Vb : vb = mutex_Trap_local gb r).
  { apply (inv_carried Ib r). simpl. now rewrite Eb. }
  pose proof (inv_loaded Ia r va sa Ea) as Sa. pose proof (inv_loaded Ib r vb sb Eb) as Sb.
  simpl in Sa, Sb. repeat split.
  - rewrite Va, Vb. now apply mutex_Trap_local_params.
  - exact Va.
  - unfold step. rewrite Ea, Sa. reflexivity.
  - unfold step. rewrite Eb, Sb. reflexivity.
Qed.

Lemma worker_amount_deterministic_witness :
  let ga := main_globals (T := float) 4 (of_int 1) (of_int 5) 2 in
  let gb := set_sum ga 100%float in
  exists ga' tha' gb' thb',
    run [0; 0; 0] (ga, main_threads 2) = Some (ga', tha')
    /\ run (one_by_one [1] ++ [0; 0; 0]) (gb, main_threads 2) = Some (gb', thb')
    /\ tha' 0 = Some (AtStore 9%float 0%float)
    /\ thb' 0 = Some (AtStore 9%float 122%float)
    /\ step 0 (gb', thb') = Some (set_sum gb' 131%float, set_thread thb' 0 AtUnlock).
Proof.
  intros ga gb. do 4 eexists.
  split; [reflexivity|]. split; [reflexivity|].
  split; [reflexivity|]. split; [reflexivity|].
  refine (proj2 (proj2 (proj2
    (worker_amount_deterministic ga gb (main_threads 2) (main_threads 2)
       [0; 0; 0] (one_by_one [1] ++ [0; 0; 0]) _ _ _ _ 0 9%float 0%float 9%float 122%float
       _ _ _ _ _ _ _)))).
  - repeat split.
  - apply main_fresh.
  - apply (main_fresh 4 (of_int 1) (of_int 5) 2).
  - reflexivity.
  - reflexivity.
  - reflexivity.
  - reflexivity.
Defined.

(** ** [n = 0] in binary64 *)

Section ZeroSubintervals.

Variable count : Z.
Hypothesis Hcount : 1 <= count <= INT_MAX.

Let g0 : globals float := main_globals 0 (of_int 1) (of_int 5) count.

Lemma zero_n_blocks r :
  0 <= r < count -> BLOCK_LOW r count 0 = 0 /\ BLOCK_HIGH r count 0 = -1.
Proof using Hcount.
  intros Hr.
  assert (H0 : 0 <= 0 <= INT_MAX) by (unfold INT_MAX; lia).
  rewrite (BLOCK_LOW_floor _ _ Hcount H0), (BLOCK_HIGH_floor _ _ Hcount H0) by lia.
  rewrite !Z.mul_0_r, Z.div_0_l by lia. split; reflexivity.
Qed.

(** [h] is [4.0/0.0], infinite; a thread adds [0.0 * h], not a number, or
    [9.0 * h], infinite, when its rank is 1. *)
Lemma zero_n_local r :
  0 <= r < count ->
  mutex_Trap_local g0 r = if r =? 1 then infinity else nan.
Proof using Hcount.
  intros Hr. destruct (zero_n_blocks r Hr) as [Hlo Hhi].
  rewrite empty_block_local.
  - destruct (r =? 1); vm_compute; reflexivity.
  - lia.
  - simpl. rewrite Hlo, Hhi. lia.
Qed.

Lemma zero_n_fold order : forall s : float,
  (forall r, In r order -> 0 <= r < count) ->
  s = nan \/ ((s = 0%float \/ s = infinity) /\ In 0 order) ->
  fold_left (fun s r => add s (mutex_Trap_local g0 r)) order s = nan.
Proof using Hcount.
  induction order as [|r order IH]; intros s Hin Hs.
  - destruct Hs as [Hs|[_ []]]. exact Hs.
  - cbn [fold_left]. apply IH; [intros r' Hr'; apply Hin; now right|].
    rewrite zero_n_local by (apply Hin; now left).
    destruct Hs as [->|[Hs [Hr0|H0]]].
    + left. destruct (r =? 1); reflexivity.
    + left. subst r. destruct Hs as [-> | ->]; reflexivity.
    + destruct (r =? 1).
      * right. split; [|exact H0]. destruct Hs as [-> | ->]; right; reflexivity.
      * left. destruct Hs as [-> | ->]; reflexivity.
Qed.

Lemma zero_n_total order :
  Permutation order (ranks count) -> add_in_order g0 order = nan.
Proof using Hcount.
  intros Hperm. unfold add_in_order. apply zero_n_fold.
  - intros r Hr. apply in_ranks. now apply (Permutation_in _ Hperm).
  - right. split; [left; reflexivity|].
    apply (Permutation_in _ (Permutation_sym Hperm)), in_ranks. lia.
Qed.

End ZeroSubintervals.

(** C5, as the code has it: with [n = 0] every block is [[0, -1]], empty,
    and no sample is evaluated; but [h = (b-a)/n] is then [4.0/0.0], which is
    infinite in binary64, and each thread adds [0.0 * h] or [9.0 * h]: the
    total is not a number, for every number of threads and every
    interleaving ([a = 1], [b = 5] as in [main]). *)
Theorem zero_n_ranges_empty_total_nan (count : Z) :
  1 <= count <= INT_MAX ->
  (forall r, 0 <= r < count ->
     BLOCK_LOW r count 0 = 0 /\ BLOCK_HIGH r count 0 = -1
     /\ visited (BLOCK_LOW r count 0) (BLOCK_HIGH r count 0) = [])
  /\ h (main_globals (T := float) 0 (of_int 1) (of_int 5) count) = infinity
  /\ main (T := float) 0 (of_int 1) (of_int 5) count (one_by_one (ranks count)) = Some nan
  /\ (forall sched v,
        main (T := float) 0 (of_int 1) (of_int 5) count sched = Some v -> v = nan).
Proof.
  intros Hcount. split; [|split; [|split]].
  - intros r Hr. destruct (zero_n_blocks count Hcount r Hr) as [Hlo Hhi].
    rewrite Hlo, Hhi. repeat split.
  - reflexivity.
  - rewrite main_one_by_one by apply Permutation_refl.
    f_equal. apply zero_n_total; [assumption|apply Permutation_refl].
  - intros sched v Hmain.
    destruct (main_serialises _ _ _ _ _ _ Hmain) as (order & Hperm & ->).
    now apply zero_n_total.
Qed.

Lemma zero_n_ranges_empty_total_nan_witness :
  1 <= 2 <= INT_MAX
  /\ visited (BLOCK_LOW 1 2 0) (BLOCK_HIGH 1 2 0) = []
  /\ main (T := float) 0 (of_int 1) (of_int 5) 2 [1; 0; 1; 1; 1; 1; 0; 0; 0; 0] = Some nan.
Proof.
  assert (Hc : 1 <= 2 <= INT_MAX) by (unfold INT_MAX; lia).
  destruct (zero_n_ranges_empty_total_nan 2 Hc) as (Hb & _ & _ & Hall).
  split; [exact Hc|]. split; [apply (Hb 1); lia|].
  destruct (main (T := float) 0 (of_int 1) (of_int 5) 2 [1; 0; 1; 1; 1; 1; 0; 0; 0; 0])
    as [v|] eqn:E; [|vm_compute in E; discriminate].
  f_equal. now apply (Hall [1; 0; 1; 1; 1; 1; 0; 0; 0; 0]).
Defined.

(** [n = 0] with the two threads of [main]: the total is not a number, in
    particular not [0.0]. *)
Lemma zero_n_total_not_zero :
  BLOCK_LOW 0 2 0 = 0 /\ BLOCK_HIGH 0 2 0 = -1
  /\ BLOCK_LOW 1 2 0 = 0 /\ BLOCK_HIGH 1 2 0 = -1
  /\ main (T := float) 0 (of_int 1) (of_int 5) 2 (one_by_one [0; 1]) = Some nan
  /\ main (T := float) 0 (of_int 1) (of_int 5) 2 (one_by_one [0; 1]) <> Some 0%float
  /\ PrimFloat.is_nan nan = true /\ PrimFloat.eqb nan 0 = false.
Proof.
  repeat split; try (vm_compute; reflexivity).
  intros H. apply (f_equal (option_map PrimFloat.is_nan)) in H. vm_compute in H.
  discriminate H.
Qed.

(** ** The hardwired run in binary64 *)

Lemma to_Z_of_Z_small z :
  0 <= z < 4611686018427387904 -> Uint63.to_Z (Uint63.of_Z z) = z.
Proof.
  intros Hz. rewrite Uint63.of_Z_spec. apply Z.mod_small.
  change wB with 9223372036854775808. lia.
Qed.

Lemma for_loop_fast (g : globals float) fuel : forall i hi local_int,
  Uint63.to_Z hi < 4611686018427387904 ->
  for_loop (loop_body g) fuel (Uint63.to_Z i) (Uint63.to_Z hi) local_int
  = fast_loop fuel i hi (a g) (h g) local_int.
Proof.
  induction fuel as [|fuel IH]; intros i hi local_int Hhi; [reflexivity|].
  cbn [for_loop fast_loop].
  pose proof (Uint63.to_Z_bounded i) as Bi.
  destruct (Z.leb_spec (Uint63.to_Z i) (Uint63.to_Z hi)) as [Hle|Hgt].
  - replace (i <=? hi)%uint63 with true by (symmetry; now apply Uint63.leb_spec).
    assert (E : to_long (Uint63.to_Z i + 1) = Uint63.to_Z (i + 1)%uint63).
    { rewrite Uint63.add_spec, Uint63.to_Z_1, to_long_small by lia.
      symmetry. apply Z.mod_small. change wB with 9223372036854775808. lia. }
    rewrite E, IH by assumption. cbv zeta.
    assert (B : loop_body g (Uint63.to_Z i) local_int
                = (local_int + fast_f (a g + PrimFloat.of_uint63 i * h g))%float).
    { unfold loop_body, sample. cbn [of_int Arith_double]. unfold float_of_Z at 1.
      destruct (Z.ltb_spec (Uint63.to_Z i) 0) as [Hneg|_]; [lia|].
      rewrite Uint63.of_to_Z. reflexivity. }
    rewrite B. now destruct (PrimFloat.eqb _ _).
  - replace (i <=? hi)%uint63 with false; [reflexivity|].
    symmetry. apply Bool.not_true_is_false. rewrite Uint63.leb_spec. lia.
Qed.

Lemma fast_local_correct (g : globals float) (r : Z) :
  0 <= BLOCK_LOW r (thread_count g) (n g) < 4611686018427387904 ->
  0 <= BLOCK_HIGH r (thread_count g) (n g) < 4611686018427387904 ->
  mutex_Trap_local g r = fast_local g r.
Proof.
  intros Hlo Hhi. unfold mutex_Trap_local, fast_local, for_range.
  rewrite <- for_loop_fast by (rewrite to_Z_of_Z_small; lia).
  now rewrite !to_Z_of_Z_small by assumption.
Qed.

(** What the two threads of [main] add, and the total in either order. *)
Lemma hardwired_locals_double :
  mutex_Trap_local hardwired_globals 0 = 0x1.1555555555589p+3%float
  /\ mutex_Trap_local hardwired_globals 1 = 0x1.0aaaacc389b7dp+4%float.
Proof.
  split; (rewrite fast_local_correct; [vm_compute; reflexivity | | ]);
    vm_compute; split; congruence.
Qed.

Lemma hardwired_total_double order :
  Permutation order (ranks 2) ->
  add_in_order hardwired_globals order = 0x1.9555576e34642p+4%float.
Proof.
  intros Hperm. destruct hardwired_locals_double as [L0 L1].
  change (ranks 2) with [0; 1] in Hperm.
  apply Permutation_sym, Permutation_length_2_inv in Hperm.
  destruct Hperm as [-> | ->]; unfold add_in_order; cbn [fold_left];
    rewrite L0, L1; reflexivity.
Qed.

Lemma hardwired_main_double sched v :
  hardwired_main (T := float) sched = Some v -> v = 0x1.9555576e34642p+4%float.
Proof.
  intros Hmain. unfold hardwired_main in Hmain.
  destruct (main_serialises _ _ _ _ _ _ Hmain) as (order & Hperm & ->).
  now apply hardwired_total_double.
Qed.

(** ** The hardwired run *)




(** * Part IV: further properties of the program *)

(** ** The critical section *)

(** X1: mutual exclusion.  In every state reached from a fresh one, a thread
    that stands between [pthread_mutex_lock] and [pthread_mutex_unlock] is
    the owner of the mutex, and no other thread stands there. *)
Theorem mutual_exclusion {T : Type} {A : Arith T}
    (g0 g : globals T) (th0 th : threads T) (sched : list Z) (r r' : Z) :
  fresh (g0, th0) ->
  run sched (g0, th0) = Some (g, th) ->
  holding (th r) = true ->
  r' <> r ->
  mutex g = Some r /\ holding (th r') = false.
Proof.
  intros F Hrun Hr Hne.
  destruct (run_invariant g0 sched [] _ _ (fresh_invariant g0 th0 F) Hrun) as (log & I & _).
  split.
  - now apply (inv_mutex I r).
  - destruct (holding (th r')) eqn:Hr'; [|reflexivity].
    exfalso. apply Hne. symmetry. exact (holder_unique g0 r r' I Hr Hr').
Qed.

Lemma mutual_exclusion_witness :
  exists (g : globals float) (th : threads float),
    run [0; 1; 0; 0] (main_globals 4 (of_int 1) (of_int 5) 2, main_threads 2) = Some (g, th)
    /\ holding (th 0) = true
    /\ mutex g = Some 0 /\ holding (th 1) = false.
Proof.
  do 2 eexists. split; [reflexivity|]. split; [reflexivity|].
  refine (mutual_exclusion (main_globals (T := float) 4 (of_int 1) (of_int 5) 2) _
            (main_threads 2) _ [0; 1; 0; 0] 0 1 _ _ _ _).
  - apply main_fresh.
  - reflexivity.
  - reflexivity.
  - discriminate.
Defined.

Lemma step_invariant_stores {T : Type} {A : Arith T}
    (g0 : globals T) (r : Z) (log : list Z) (st st' : globals T * threads T) :
  invariant g0 log st -> step r st = Some st' ->
  invariant g0 (log ++ if at_store (snd st r) then [r] else []) st'.
Proof.
  intros I Hstep.
  destruct (step_invariant g0 r log st st' I Hstep) as (log' & I' & [-> | [-> (v & s & E)]]).
  - destruct (at_store (snd st r)) eqn:Hat; [|now rewrite app_nil_r].
    exfalso.
    assert (Hbefore : stored (snd st r) = false).
    { unfold at_store in Hat. destruct (snd st r) as [[]|]; try discriminate Hat.
      reflexivity. }
    assert (Hafter : stored (snd st' r) = true).
    { destruct st as [g th]. simpl in Hat. unfold step in Hstep.
      destruct (th r) as [[| | | v s | |]|] eqn:Er; try discriminate Hat.
      injection Hstep as <-. simpl. now rewrite set_thread_same. }
    apply (inv_log I' r) in Hafter. apply (inv_log I r) in Hafter. congruence.
  - unfold at_store. now rewrite E.
Qed.

Lemma run_stores {T : Type} {A : Arith T} (g0 : globals T) (sched : list Z) :
  forall log (st st' : globals T * threads T),
    invariant g0 log st -> run sched st = Some st' ->
    invariant g0 (log ++ stores sched st) st'.
Proof.
  induction sched as [|r sched IH]; intros log st st' I Hrun; simpl in Hrun |- *.
  - injection Hrun as <-. now rewrite app_nil_r.
  - destruct (step r st) as [st1|] eqn:Hstep; [|discriminate].
    rewrite app_assoc. apply (IH _ st1 st'); [|exact Hrun].
    now apply step_invariant_stores.
Qed.

(** X2: no update is lost.  In every state reached from a fresh one, in any
    arithmetic, [GLOBAL_MUTEX_SUM] is its initial value with the local values
    of the threads that have stored added one after the other, each once, in
    the order in which the schedule made them store. *)
Theorem total_is_sum_of_stored {T : Type} {A : Arith T}
    (g0 g : globals T) (th0 th : threads T) (sched : list Z) :
  fresh (g0, th0) ->
  run sched (g0, th0) = Some (g, th) ->
  let log := stores sched (g0, th0) in
  NoDup log
  /\ (forall r, In r log <-> stored (th r) = true)
  /\ GLOBAL_MUTEX_SUM g
     = fold_left (fun s r => add s (mutex_Trap_local g0 r)) log (GLOBAL_MUTEX_SUM g0).
Proof.
  intros F Hrun log.
  pose proof (run_stores g0 sched [] _ _ (fresh_invariant g0 th0 F) Hrun) as I.
  simpl in I. fold log in I.
  split; [exact (inv_nodup I)|]. split; [exact (inv_log I)|exact (inv_sum I)].
Qed.

Lemma total_is_sum_of_stored_witness :
  let g0 := main_globals (T := float) 4 (of_int 1) (of_int 5) 3 in
  let sched := one_by_one [2] ++ [0; 1; 1; 1; 1] in
  exists (g : globals float) (th : threads float),
    run sched (g0, main_threads 3) = Some (g, th)
    /\ stores sched (g0, main_threads 3) = [2; 1]
    /\ GLOBAL_MUTEX_SUM g = 26%float
    /\ GLOBAL_MUTEX_SUM g
       = fold_left (fun s r => add s (mutex_Trap_local g0 r))
           (stores sched (g0, main_threads 3)) (GLOBAL_MUTEX_SUM g0).
Proof.
  intros g0 sched. do 2 eexists. split; [reflexivity|]. split; [reflexivity|].
  split; [reflexivity|].
  refine (proj2 (proj2 (total_is_sum_of_stored g0 _ (main_threads 3) _ sched _ _))).
  - apply main_fresh.
  - reflexivity.
Defined.

(** X3: no deadlock.  In every state reached from a fresh one, as long as
    some thread has not returned, some thread can take a step: the owner of
    the mutex if there is one, any thread that has not returned otherwise. *)
Theorem no_deadlock {T : Type} {A : Arith T}
    (g0 g : globals T) (th0 th : threads T) (sched : list Z) (r : Z) (c : pc T) :
  fresh (g0, th0) ->
  run sched (g0, th0) = Some (g, th) ->
  th r = Some c -> c <> Finished ->
  exists r', step r' (g, th) <> None
             /\ (mutex g = None -> r' = r)
             /\ (forall r0, mutex g = Some r0 -> r' = r0).
Proof.
  intros F Hrun Hc Hnf.
  destruct (run_invariant g0 sched [] _ _ (fresh_invariant g0 th0 F) Hrun) as (log & I & _).
  destruct (mutex g) as [r0|] eqn:M.
  - exists r0. split.
    + pose proof (proj1 (inv_mutex I r0) M) as Hh. simpl in Hh.
      unfold step. destruct (th r0) as [[| | | | |]|]; try discriminate Hh; discriminate.
    + split; [discriminate|]. intros r1 E. now injection E.
  - exists r. split.
    + unfold step. rewrite Hc.
      destruct c; try discriminate; [rewrite M; discriminate|contradiction].
    + split; [reflexivity|discriminate].
Qed.

Lemma no_deadlock_witness :
  exists (g : globals float) (th : threads float),
    run [0; 1; 0; 0] (main_globals 4 (of_int 1) (of_int 5) 2, main_threads 2) = Some (g, th)
    /\ step 1 (g, th) = None
    /\ exists r', step r' (g, th) <> None
                  /\ (mutex g = None -> r' = 1)
                  /\ (forall r0, mutex g = Some r0 -> r' = r0).
Proof.
  do 2 eexists. split; [reflexivity|]. split; [reflexivity|].
  refine (no_deadlock (main_globals (T := float) 4 (of_int 1) (of_int 5) 2) _
            (main_threads 2) _ [0; 1; 0; 0] 1 (AtLock 22%float) _ _ _ _).
  - apply main_fresh.
  - reflexivity.
  - reflexivity.
  - discriminate.
Defined.

(** X5: at the join.  No run changes [n], [a], [b], [h] or [thread_count],
    and once every thread has returned the mutex is free, so that
    [pthread_mutex_destroy] is applied to an unlocked mutex. *)
Theorem params_kept_mutex_free_at_join {T : Type} {A : Arith T}
    (g0 g : globals T) (th0 th : threads T) (sched : list Z) :
  fresh (g0, th0) ->
  run sched (g0, th0) = Some (g, th) ->
  same_params g0 g
  /\ ((forall r, th r = None \/ th r = Some Finished) -> mutex g = None).
Proof.
  intros F Hrun.
  destruct (run_invariant g0 sched [] _ _ (fresh_invariant g0 th0 F) Hrun) as (log & I & _).
  split; [exact (inv_params I)|].
  intros Hall. destruct (mutex g) as [r0|] eqn:M; [|reflexivity].
  pose proof (proj1 (inv_mutex I r0) M) as Hh. simpl in Hh.
  destruct (Hall r0) as [E|E]; rewrite E in Hh; discriminate Hh.
Qed.

Lemma params_kept_mutex_free_at_join_witness :
  let g0 := main_globals (T := float) 4 (of_int 1) (of_int 5) 2 in
  exists (g : globals float) (th : threads float),
    run (one_by_one [1; 0]) (g0, main_threads 2) = Some (g, th)
    /\ same_params g0 g /\ mutex g = None.
Proof.
  intros g0. do 2 eexists. split; [reflexivity|].
  destruct (params_kept_mutex_free_at_join g0 _ (main_threads 2) _ (one_by_one [1; 0])
              (main_fresh 4 (of_int 1) (of_int 5) 2) eq_refl) as [Hp Hm].
  split; [exact Hp|]. apply Hm. intros r. unfold set_thread, main_threads.
  destruct (r =? 0) eqn:E0; [now right|].
  destruct (r =? 1) eqn:E1; [now right|].
  left. apply Z.eqb_neq in E0, E1.
  destruct (Z.leb_spec 0 r), (Z.ltb_spec r 2); simpl; try reflexivity. lia.
Defined.

(** ** The steps of a run *)

Lemma step_progress {T : Type} {A : Arith T} (r : Z) (st st' : globals T * threads T) :
  step r st = Some st' ->
  forall r', progress (snd st' r')
             = (progress (snd st r') + if Z.eq_dec r r' then 1 else 0)%nat.
Proof.
  destruct st as [g th]. unfold step.
  destruct (th r) as [[| v | v | v s | |]|] eqn:E; try discriminate;
    try (destruct (mutex g); try discriminate);
    intros [= <-] r'; simpl; unfold set_thread;
    (destruct (Z.eq_dec r r') as [<-|Hne];
     [rewrite Z.eqb_refl, E; reflexivity
     |replace (r' =? r) with false by (symmetry; apply Z.eqb_neq; congruence); lia]).
Qed.

Lemma run_progress {T : Type} {A : Arith T} (sched : list Z) :
  forall (st st' : globals T * threads T),
    run sched st = Some st' ->
    forall r, progress (snd st' r) = (progress (snd st r) + count_occ Z.eq_dec sched r)%nat.
Proof.
  induction sched as [|r0 sched IH]; intros st st' Hrun r; simpl in Hrun.
  - injection Hrun as <-. simpl. lia.
  - destruct (step r0 st) as [st1|] eqn:Hstep; [|discriminate].
    rewrite (IH st1 st' Hrun r), (step_progress r0 st st1 Hstep r). simpl.
    destruct (Z.eq_dec r0 r); lia.
Qed.

Lemma list_sum_indicator (x : Z) (l : list Z) :
  NoDup l -> In x l ->
  list_sum (map (fun y => if Z.eq_dec x y then 1 else 0)%nat l) = 1%nat.
Proof.
  induction l as [|y l IH]; intros Hnd Hin; [contradiction|].
  inversion Hnd as [|? ? Hy Hnd']; subst. simpl.
  destruct (Z.eq_dec x y) as [->|Hne].
  - f_equal. clear IH Hin Hnd Hnd'. induction l as [|z l IH]; [reflexivity|].
    simpl. destruct (Z.eq_dec y z) as [->|_].
    + exfalso. apply Hy. now left.
    + apply IH. intros H. apply Hy. now right.
  - destruct Hin as [->|Hin]; [contradiction|]. now apply IH.
Qed.

Lemma list_sum_const (c : nat) (l : list Z) :
  list_sum (map (fun _ => c) l) = (c * length l)%nat.
Proof. induction l as [|y l IH]; simpl; lia. Qed.

Lemma length_by_count_occ (l s : list Z) :
  NoDup l -> (forall x, In x s -> In x l) ->
  length s = list_sum (map (count_occ Z.eq_dec s) l).
Proof.
  intros Hnd. induction s as [|x s IH]; intros Hin.
  - clear Hnd Hin. simpl. induction l as [|y l IHl]; [reflexivity|exact IHl].
  - assert (E : map (count_occ Z.eq_dec (x :: s)) l
                = map (fun y => ((if Z.eq_dec x y then 1 else 0)
                                 + count_occ Z.eq_dec s y)%nat) l).
    { apply map_ext. intros y. simpl. destruct (Z.eq_dec x y); reflexivity. }
    rewrite E.
    assert (S : forall (u v : Z -> nat) (k : list Z),
               list_sum (map (fun y => (u y + v y)%nat) k)
               = (list_sum (map u k) + list_sum (map v k))%nat).
    { intros u v k. induction k as [|y k IHk]; simpl; lia. }
    rewrite S, list_sum_indicator by (assumption || (apply Hin; now left)).
    simpl. f_equal. apply IH. intros y Hy. apply Hin. now right.
Qed.

(** X4: every run that [main] can finish gives each thread exactly five
    steps (compute, lock, load, store, unlock), so each thread takes the mutex
    once and writes [GLOBAL_MUTEX_SUM] once, no other rank ever moves, and the
    run has [5 * thread_count] steps. *)
Theorem each_thread_five_steps {T : Type} {A : Arith T}
    (n0 : Z) (a0 b0 : T) (count : Z) (sched : list Z) (v : T) :
  main n0 a0 b0 count sched = Some v ->
  (forall r, count_occ Z.eq_dec sched r
             = if (0 <=? r) && (r <? count) then 5%nat else 0%nat)
  /\ length sched = (5 * Z.to_nat count)%nat.
Proof.
  unfold main. set (g0 := main_globals n0 a0 b0 count).
  destruct (run sched (g0, main_threads count)) as [[g th]|] eqn:Hrun; [|discriminate].
  destruct (forallb (finished th) (ranks count)) eqn:Hfin; [|discriminate].
  intros _.
  assert (Hocc : forall r, count_occ Z.eq_dec sched r
                           = if (0 <=? r) && (r <? count) then 5%nat else 0%nat).
  { intros r. pose proof (run_progress sched _ _ Hrun r) as P. simpl in P.
    unfold main_threads in P.
    destruct ((0 <=? r) && (r <? count)) eqn:Hr.
    - assert (Hin : In r (ranks count)).
      { apply in_ranks. apply andb_true_iff in Hr. lia. }
      rewrite forallb_forall in Hfin. specialize (Hfin r Hin). unfold finished in Hfin.
      destruct (th r) as [[]|]; try discriminate Hfin. simpl in P. lia.
    - pose proof (run_invariant g0 sched [] _ _
                    (fresh_invariant g0 _ (main_fresh n0 a0 b0 count)) Hrun)
        as (_ & _ & Hdom).
      assert (E : th r = None).
      { apply (Hdom r). simpl. unfold main_threads. now rewrite Hr. }
      rewrite E in P. simpl in P. lia. }
  split; [exact Hocc|].
  rewrite (length_by_count_occ (ranks count) sched (NoDup_ranks count)).
  - replace (map (count_occ Z.eq_dec sched) (ranks count))
      with (map (fun _ : Z => 5%nat) (ranks count)).
    + rewrite list_sum_const. f_equal. unfold ranks. now rewrite length_map, length_seq.
    + apply map_ext_in. intros r Hr. rewrite Hocc. apply in_ranks in Hr.
      destruct (Z.leb_spec 0 r), (Z.ltb_spec r count); simpl; (reflexivity || lia).
  - intros x Hx. apply in_ranks.
    assert (Hpos : (count_occ Z.eq_dec sched x > 0)%nat) by now apply count_occ_In.
    rewrite Hocc in Hpos.
    destruct (Z.leb_spec 0 x), (Z.ltb_spec x count); simpl in Hpos; lia.
Qed.

Lemma each_thread_five_steps_witness :
  main (T := float) 4 (of_int 1) (of_int 5) 2 [1; 0; 1; 1; 1; 1; 0; 0; 0; 0] = Some 31%float
  /\ count_occ Z.eq_dec [1; 0; 1; 1; 1; 1; 0; 0; 0; 0] 1 = 5%nat
  /\ length [1; 0; 1; 1; 1; 1; 0; 0; 0; 0] = (5 * Z.to_nat 2)%nat.
Proof.
  assert (M : main (T := float) 4 (of_int 1) (of_int 5) 2 [1; 0; 1; 1; 1; 1; 0; 0; 0; 0]
              = Some 31%float) by reflexivity.
  destruct (each_thread_five_steps _ _ _ _ _ _ M) as [Hocc Hlen].
  split; [exact M|]. split; [exact (Hocc 1)|exact Hlen].
Defined.

(** X11: without threads.  With [thread_count <= 0] no thread is created,
    no schedule but the empty one is a run, and [main] prints the initial
    [0]. *)
Theorem main_without_threads {T : Type} {A : Arith T}
    (n0 : Z) (a0 b0 : T) (count : Z) (sched : list Z) (v : T) :
  count <= 0 ->
  main n0 a0 b0 count [] = Some (of_int 0)
  /\ (main n0 a0 b0 count sched = Some v -> sched = [] /\ v = of_int 0).
Proof.
  intros Hc.
  assert (R : ranks count = []).
  { unfold ranks. replace (Z.to_nat count) with 0%nat by lia. reflexivity. }
  assert (M : main n0 a0 b0 count [] = Some (of_int 0)).
  { unfold main. simpl. now rewrite R. }
  split; [exact M|].
  destruct sched as [|r sched].
  - rewrite M. intros [= <-]. now split.
  - unfold main. simpl. unfold main_threads.
    replace ((0 <=? r) && (r <? count)) with false; [discriminate|].
    symmetry. apply andb_false_iff.
    destruct (Z.leb_spec 0 r); [right; apply Z.ltb_ge; lia|now left].
Qed.

Lemma main_without_threads_witness :
  0 <= 0
  /\ main (T := float) 10000000 (of_int 1) (of_int 5) 0 [] = Some 0%float.
Proof.
  split; [lia|].
  exact (proj1 (main_without_threads (T := float) 10000000 (of_int 1) (of_int 5) 0 []
                  0%float (Z.le_refl 0))).
Defined.

(** ** More on the blocks and the loop *)

(** X7: every sample index is visited once.  Running the loops of the
    threads one after the other in rank order visits exactly the indices
    [0, 1, ..., n-1], in this order; the loop of thread [r] runs its body at
    the indices of its block and at no other. *)
Theorem samples_enumerated (p n : Z) :
  1 <= p <= INT_MAX -> 0 <= n <= INT_MAX ->
  flat_map (fun r => visited (BLOCK_LOW r p n) (BLOCK_HIGH r p n)) (ranks p)
  = Zrange 0 (Z.to_nat n)
  /\ (forall r i, 0 <= r < p ->
        (In i (visited (BLOCK_LOW r p n) (BLOCK_HIGH r p n)) <-> in_block r p n i)).
Proof.
  intros Hp Hn. split.
  - assert (G : forall k : nat, Z.of_nat k <= p ->
                flat_map (fun r => visited (BLOCK_LOW r p n) (BLOCK_HIGH r p n))
                  (ranks (Z.of_nat k))
                = Zrange 0 (Z.to_nat (BLOCK_LOW (Z.of_nat k) p n))).
    { induction k as [|k IH]; intros Hk.
      - change (Z.of_nat 0) with 0. now rewrite (BLOCK_LOW_first p n Hp Hn).
      - replace (Z.of_nat (S k)) with (Z.of_nat k + 1) by lia.
        rewrite ranks_succ, flat_map_app, IH by lia. cbn [flat_map].
        rewrite app_nil_r, visited_block by (assumption || lia).
        pose proof (BLOCK_LOW_range p n Hp Hn (Z.of_nat k) ltac:(lia)) as Hlo.
        pose proof (BLOCK_LOW_mono p n Hp Hn (Z.of_nat k) (Z.of_nat k + 1)
                      ltac:(lia) ltac:(lia)) as Hmono.
        replace (Z.to_nat (BLOCK_LOW (Z.of_nat k + 1) p n))
          with (Z.to_nat (BLOCK_LOW (Z.of_nat k) p n)
                + Z.to_nat (BLOCK_LOW (Z.of_nat k + 1) p n - BLOCK_LOW (Z.of_nat k) p n))%nat
          by lia.
        rewrite Zrange_app, Z2Nat.id, Z.add_0_l by lia. reflexivity. }
    specialize (G (Z.to_nat p)). rewrite Z2Nat.id in G by lia.
    rewrite G by lia. now rewrite (BLOCK_LOW_last p n Hp Hn).
  - intros r i Hr. rewrite visited_block by assumption. rewrite in_Zrange.
    unfold in_block. rewrite (BLOCK_HIGH_next p n Hp Hn) by assumption.
    pose proof (BLOCK_LOW_mono p n Hp Hn r (r + 1) ltac:(lia) ltac:(lia)). lia.
Qed.

Lemma samples_enumerated_witness :
  1 <= 3 <= INT_MAX /\ 0 <= 8 <= INT_MAX
  /\ flat_map (fun r => visited (BLOCK_LOW r 3 8) (BLOCK_HIGH r 3 8)) (ranks 3)
     = [0; 1; 2; 3; 4; 5; 6; 7]
  /\ (In 4 (visited (BLOCK_LOW 1 3 8) (BLOCK_HIGH 1 3 8)) <-> in_block 1 3 8 4).
Proof.
  assert (Hp : 1 <= 3 <= INT_MAX) by (unfold INT_MAX; lia).
  assert (Hn : 0 <= 8 <= INT_MAX) by (unfold INT_MAX; lia).
  destruct (samples_enumerated 3 8 Hp Hn) as [Hall Hin].
  split; [exact Hp|]. split; [exact Hn|]. split; [exact Hall|apply Hin; lia].
Defined.

(** X13: the order of the additions in a thread.  In any arithmetic, the
    value a thread adds to the total is [h] times the left-to-right sum of
    the samples of its block, by increasing index, started from [0.0] (from
    [0.0 + (f(a)+f(b))/2.0] in the thread of rank 1). *)
Theorem local_value_ordered_sum {T : Type} {A : Arith T} (g : globals T) (r : Z) :
  1 <= thread_count g <= INT_MAX -> 0 <= n g <= INT_MAX -> 0 <= r < thread_count g ->
  let lo := BLOCK_LOW r (thread_count g) (n g) in
  let next := BLOCK_LOW (r + 1) (thread_count g) (n g) in
  lo <= next
  /\ mutex_Trap_local g r
     = mul (fold_left (fun s i => add s (sample g i)) (Zrange lo (Z.to_nat (next - lo)))
              (if r =? 1 then add (of_int 0) (endpoint_term g) else of_int 0))
           (h g).
Proof.
  intros Hp Hn Hr lo next.
  split; [apply (BLOCK_LOW_mono _ _ Hp Hn); lia|].
  unfold mutex_Trap_local.
  pose proof (BLOCK_LOW_range _ _ Hp Hn r ltac:(lia)) as Hlo.
  pose proof (BLOCK_LOW_range _ _ Hp Hn (r + 1) ltac:(lia)) as Hhi.
  rewrite for_range_visited;
    [|lia|rewrite (BLOCK_HIGH_next _ _ Hp Hn) by assumption; unfold INT_MAX in *; lia].
  rewrite visited_block by assumption.
  unfold local_int_before_loop. rewrite adds_endpoint_rank by lia. reflexivity.
Qed.

Lemma local_value_ordered_sum_witness :
  let g := main_globals (T := float) 8 (of_int 1) (of_int 5) 3 in
  mutex_Trap_local g 1
  = mul (fold_left (fun s i => add s (sample g i)) [2; 3; 4]
           (add (of_int 0) (endpoint_term g))) (h g).
Proof.
  intros g.
  exact (proj2 (local_value_ordered_sum g 1
                  ltac:(unfold INT_MAX; simpl; lia) ltac:(unfold INT_MAX; simpl; lia)
                  ltac:(simpl; lia))).
Defined.

(** X6: equal blocks.  When [thread_count] divides [n], the block of rank
    [id] starts at [id * (n / p)] and every block has exactly [n / p]
    indices. *)
Theorem blocks_equal_when_divisible (p n id : Z) :
  1 <= p <= INT_MAX -> 0 <= n <= INT_MAX -> n mod p = 0 -> 0 <= id < p ->
  BLOCK_LOW id p n = id * (n / p) /\ block_size id p n = n / p.
Proof.
  intros Hp Hn Hdiv Hid.
  assert (En : n = n / p * p).
  { pose proof (Z.div_mod n p ltac:(lia)). lia. }
  assert (L : forall k, 0 <= k <= p -> BLOCK_LOW k p n = k * (n / p)).
  { intros k Hk. rewrite (BLOCK_LOW_floor p n Hp Hn) by assumption.
    rewrite En at 1. rewrite Z.mul_assoc. apply Z.div_mul. lia. }
  split; [apply L; lia|].
  unfold block_size. rewrite (BLOCK_HIGH_next p n Hp Hn) by assumption.
  rewrite !L by lia. lia.
Qed.

Lemma blocks_equal_when_divisible_witness :
  10000000 mod 2 = 0
  /\ BLOCK_LOW 1 2 10000000 = 1 * (10000000 / 2)
  /\ block_size 1 2 10000000 = 10000000 / 2.
Proof.
  split; [reflexivity|].
  apply (blocks_equal_when_divisible 2 10000000 1); unfold INT_MAX; try lia; reflexivity.
Defined.

(** X8: a negative [n].  With [n < 0] the macros give every thread an empty
    block (C division truncates towards zero), so no thread evaluates a sample
    and each adds [h] times its initial local sum. *)
Theorem negative_n_blocks_empty {T : Type} {A : Arith T} (g : globals T) (r : Z) :
  1 <= thread_count g <= INT_MAX -> - 2147483648 <= n g < 0 -> 0 <= r < thread_count g ->
  BLOCK_HIGH r (thread_count g) (n g) < BLOCK_LOW r (thread_count g) (n g)
  /\ visited (BLOCK_LOW r (thread_count g) (n g)) (BLOCK_HIGH r (thread_count g) (n g)) = []
  /\ mutex_Trap_local g r = mul (local_int_before_loop g r) (h g).
Proof.
  intros Hp Hn Hr. unfold INT_MAX in Hp.
  assert (L : forall k, 0 <= k <= thread_count g ->
              BLOCK_LOW k (thread_count g) (n g) = Z.quot (k * n g) (thread_count g)).
  { intros k Hk. unfold BLOCK_LOW.
    assert (- (2147483647 * 2147483648) <= k * n g <= 0) by nia.
    rewrite (to_long_small (k * n g)) by lia.
    apply to_long_small.
    assert (Z.quot (k * n g) (thread_count g) <= 0).
    { rewrite <- (Z.quot_0_l (thread_count g)) by lia. apply Z.quot_le_mono; lia. }
    assert (k * n g <= Z.quot (k * n g) (thread_count g)).
    { apply Z.opp_le_mono. rewrite <- Z.quot_opp_l by lia.
      rewrite Z.quot_div_nonneg by lia.
      apply Z.div_le_upper_bound; [lia|]. nia. }
    lia. }
  assert (E : BLOCK_HIGH r (thread_count g) (n g)
              < BLOCK_LOW r (thread_count g) (n g)).
  { unfold BLOCK_HIGH. rewrite (to_long_small (r + 1)) by lia.
    rewrite !L by lia.
    assert (M : Z.quot ((r + 1) * n g) (thread_count g)
                <= Z.quot (r * n g) (thread_count g)) by (apply Z.quot_le_mono; nia).
    assert (Z.quot ((r + 1) * n g) (thread_count g) <= 0).
    { rewrite <- (Z.quot_0_l (thread_count g)) by lia. apply Z.quot_le_mono; nia. }
    assert ((r + 1) * n g <= Z.quot ((r + 1) * n g) (thread_count g)).
    { apply Z.opp_le_mono. rewrite <- Z.quot_opp_l by lia.
      rewrite Z.quot_div_nonneg by nia.
      apply Z.div_le_upper_bound; [lia|]. nia. }
    rewrite to_long_small by nia. lia. }
  split; [exact E|]. split.
  - unfold visited. now apply for_range_empty.
  - unfold mutex_Trap_local. now rewrite for_range_empty.
Qed.

Lemma negative_n_blocks_empty_witness :
  let g := main_globals (T := float) (-3) (of_int 1) (of_int 5) 2 in
  BLOCK_LOW 1 2 (-3) = -1 /\ BLOCK_HIGH 1 2 (-3) = -4
  /\ BLOCK_HIGH 1 (thread_count g) (n g) < BLOCK_LOW 1 (thread_count g) (n g)
  /\ mutex_Trap_local g 1 = (-12)%float.
Proof.
  intros g. split; [reflexivity|]. split; [reflexivity|].
  destruct (negative_n_blocks_empty g 1) as (He & _ & Hl);
    [unfold INT_MAX; simpl; lia | simpl; lia | simpl; lia |].
  split; [exact He|]. rewrite Hl. reflexivity.
Defined.

(** ** The estimate in exact arithmetic *)

Lemma inject_Z_nonzero (z : Z) : 1 <= z -> ~ (inject_Z z == 0)%Q.
Proof. intros Hz. unfold Qeq. simpl. lia. Qed.

(** X9: the error of the estimate.  In exact arithmetic, for [n >= 1], every
    run prints the integral of [f] over [[a, b]] plus [(b-a) h^2 / 6] (the
    error of the trapezoidal rule for this [f]) plus a term of order [h]:
    [h f(a)] with two or more threads (the loops also visit index 0), and
    [h (f(a) - f(b)) / 2] with one thread (no endpoint term). *)
Theorem estimate_error_formula (n0 : Z) (a0 b0 : Q) (count : Z) (sched : list Z) (v : Q) :
  1 <= n0 <= INT_MAX -> 1 <= count <= INT_MAX ->
  main n0 a0 b0 count sched = Some v ->
  let hh := ((b0 - a0) / inject_Z n0)%Q in
  (v == antiderivative b0 - antiderivative a0
        + (b0 - a0) * hh * hh / 6
        + (if 2 <=? count then hh * f a0 else hh * (f a0 - f b0) / 2))%Q.
Proof.
  intros Hn Hp Hmain hh.
  assert (Hn' : 0 <= n0 <= INT_MAX) by lia.
  rewrite (main_exact_total _ _ _ _ _ _ Hp Hn' Hmain).
  rewrite Qsum_samples, Z2Nat.id, Z.add_0_l by lia.
  pose proof (inject_Z_nonzero n0 ltac:(lia)) as Hx.
  unfold samples_below, endpoint_term, antiderivative, f, hh.
  cbn [main_globals a b h of_int add sub mul div Arith_exact].
  change (inject_Z 0) with 0%Q. change (inject_Z 2) with 2%Q.
  change (inject_Z 4) with 4%Q. change (inject_Z 8) with 8%Q.
  destruct (2 <=? count); field; exact Hx.
Qed.

Lemma estimate_error_formula_witness :
  exists v : Q,
    main 4 (of_int 1) (of_int 5) 2 (one_by_one [0; 1]) = Some v
    /\ (v == (76 # 3) + (2 # 3) + 5)%Q.
Proof.
  eexists. split; [vm_compute; reflexivity|].
  rewrite (estimate_error_formula 4 (of_int 1) (of_int 5) 2 (one_by_one [0; 1]));
    [vm_compute; reflexivity | unfold INT_MAX; lia | unfold INT_MAX; lia
    | vm_compute; reflexivity].
Defined.

Lemma Qsquare_nonneg (y : Q) : (0 <= y * y)%Q.
Proof.
  destruct (Qlt_le_dec y 0) as [Hneg|Hpos].
  - assert (E : (y * y == (- y) * (- y))%Q) by ring.
    rewrite E. apply Qmult_le_0_compat; lra.
  - now apply Qmult_le_0_compat.
Qed.

Lemma f_lower_bound (x : Q) : (4 <= f x)%Q.
Proof.
  unfold f. cbn [of_int add sub mul Arith_exact].
  change (inject_Z 4) with 4%Q. change (inject_Z 8) with 8%Q.
  assert (E : (x * x - 4 * x + 8 == (x - 2) * (x - 2) + 4)%Q) by ring.
  rewrite E. pose proof (Qsquare_nonneg (x - 2)). lra.
Qed.

Lemma Qsum_lower_bound (c : Q) (l : list Q) :
  (forall x, In x l -> (c <= x)%Q) -> (inject_Z (Z.of_nat (length l)) * c <= Qsum l)%Q.
Proof.
  induction l as [|x l IH]; intros Hl.
  - cbn [length Qsum]. change (inject_Z (Z.of_nat 0)) with 0%Q. lra.
  - cbn [length Qsum]. rewrite Nat2Z.inj_succ, <- Z.add_1_r, inject_Z_plus.
    change (inject_Z 1) with 1%Q.
    pose proof (Hl x (or_introl eq_refl)).
    pose proof (IH (fun y Hy => Hl y (or_intror Hy))).
    lra.
Qed.

Lemma length_Zrange (c : nat) : forall lo, length (Zrange lo c) = c.
Proof. induction c as [|c IH]; intros lo; simpl; [reflexivity|now rewrite IH]. Qed.

(** X10: a lower bound.  In exact arithmetic the integrand is at least 4
    everywhere ([f(x) = (x-2)^2 + 4]), and for [a < b] and [n >= 1] every run
    prints at least [4 (b - a)]. *)
Theorem estimate_lower_bound (n0 : Z) (a0 b0 : Q) (count : Z) (sched : list Z) (v : Q) :
  1 <= n0 <= INT_MAX -> 1 <= count <= INT_MAX -> (a0 < b0)%Q ->
  main n0 a0 b0 count sched = Some v ->
  (forall x : Q, (4 <= f x)%Q) /\ (4 * (b0 - a0) <= v)%Q.
Proof.
  intros Hn Hp Hab Hmain. split; [exact f_lower_bound|].
  assert (Hn' : 0 <= n0 <= INT_MAX) by lia.
  rewrite (main_exact_total _ _ _ _ _ _ Hp Hn' Hmain).
  set (g := main_globals n0 a0 b0 count).
  pose proof (inject_Z_nonzero n0 ltac:(lia)) as Hx.
  assert (Hxpos : (0 < inject_Z n0)%Q).
  { change 0%Q with (inject_Z 0). rewrite <- Zlt_Qlt. lia. }
  assert (Hh : (0 < h g)%Q).
  { unfold g. cbn [main_globals h sub div of_int Arith_exact].
    apply Qlt_shift_div_l; [exact Hxpos|]. lra. }
  assert (Hnh : (inject_Z n0 * h g == b0 - a0)%Q).
  { unfold g. cbn [main_globals h sub div of_int Arith_exact]. field. exact Hx. }
  assert (HS : (inject_Z n0 * 4 <= Qsum (map (sample g) (Zrange 0 (Z.to_nat n0))))%Q).
  { pose proof (Qsum_lower_bound 4 (map (sample g) (Zrange 0 (Z.to_nat n0)))) as B.
    rewrite length_map, length_Zrange, Z2Nat.id in B by lia.
    apply B. intros x Hin. apply in_map_iff in Hin. destruct Hin as (i & <- & _).
    apply f_lower_bound. }
  assert (HE : (0 <= if 2 <=? count then endpoint_term g else 0)%Q).
  { destruct (2 <=? count); [|lra].
    unfold endpoint_term. cbn [add div of_int Arith_exact]. change (inject_Z 2) with 2%Q.
    pose proof (f_lower_bound (a g)). pose proof (f_lower_bound (b g)).
    apply Qle_shift_div_l; lra. }
  rewrite <- Hnh.
  set (E := if 2 <=? count then endpoint_term g else 0%Q) in *.
  set (S := Qsum (map (sample g) (Zrange 0 (Z.to_nat n0)))) in *.
  set (x := inject_Z n0) in *. set (hv := h g) in *.
  assert (H1 : (4 * (x * hv) == (x * 4) * hv)%Q) by ring.
  rewrite H1. apply Qmult_le_compat_r; lra.
Qed.

Lemma estimate_lower_bound_witness :
  exists v : Q,
    main 4 (of_int 1) (of_int 5) 1 (one_by_one [0]) = Some v
    /\ (4 * (of_int 5 - of_int 1) <= v)%Q.
Proof.
  eexists. split; [vm_compute; reflexivity|].
  refine (proj2 (estimate_lower_bound 4 (of_int 1) (of_int 5) 1 (one_by_one [0]) _ _ _ _ _));
    [unfold INT_MAX; lia | unfold INT_MAX; lia | reflexivity | vm_compute; reflexivity].
Defined.

(** X12: an empty interval.  In exact arithmetic, with [b = a] and
    [n >= 1], the step [h] is 0 and every run prints 0. *)
Theorem empty_interval_estimate (n0 : Z) (a0 : Q) (count : Z) (sched : list Z) (v : Q) :
  1 <= n0 <= INT_MAX -> 1 <= count <= INT_MAX ->
  main n0 a0 a0 count sched = Some v ->
  (v == 0)%Q.
Proof.
  intros Hn Hp Hmain.
  assert (Hn' : 0 <= n0 <= INT_MAX) by lia.
  rewrite (main_exact_total _ _ _ _ _ _ Hp Hn' Hmain).
  assert (Hh : (h (main_globals n0 a0 a0 count) == 0)%Q).
  { cbn [main_globals h sub div of_int Arith_exact]. field.
    apply inject_Z_nonzero. lia. }
  rewrite Hh. ring.
Qed.

Lemma empty_interval_estimate_witness :
  exists v : Q,
    main 4 (of_int 3) (of_int 3) 2 (one_by_one [1; 0]) = Some v /\ (v == 0)%Q.
Proof.
  eexists. split; [vm_compute; reflexivity|].
  apply (empty_interval_estimate 4 (of_int 3) 2 (one_by_one [1; 0]));
    [unfold INT_MAX; lia | unfold INT_MAX; lia | vm_compute; reflexivity].
Defined.
